(** * Relay of on-chain creation events: log filter, payload decoder,
      reconnecting upstream listener and client registry.

    Shallow embedding of [backend/stream.go], the decoder file
    ([DecodeBorsh], [DecodeBase64]) and the WebSocket server file
    ([handleConnection], [sendMessageToAllClients]).

    Go's [string] and [[]byte] are both sequences of bytes; both are
    [list byte] here, so [string(b)] and [[]byte(s)] are the identity. *)

From Stdlib Require Import ZArith List Strings.String Strings.Ascii Strings.Byte Lia Bool.
From stdpp Require Import base option list vector gmap.

Open Scope nat_scope.

(** ** Bytes *)

#[global] Instance byte_eq_dec : EqDecision byte := Byte.byte_eq_dec.

#[global] Program Instance byte_countable : Countable byte :=
  inj_countable Byte.to_N Byte.of_N _.
Next Obligation. exact Byte.of_to_N. Qed.

(** A Go string literal, as the bytes it denotes. *)
Definition bytes_of (s : string) : list byte := list_byte_of_string s.

(** ** The functions of Go's [strings] and [bytes] packages that the code calls *)

Module Strings.

(** [bytes.Equal]. *)
Definition Equal (a b : list byte) : bool := bool_decide (a = b).

(** [strings.HasPrefix] / [bytes.HasPrefix]:
    [len(s) >= len(prefix) && s[:len(prefix)] == prefix]. *)
Definition HasPrefix (s prefix : list byte) : bool :=
  (length prefix <=? length s) && Equal (take (length prefix) s) prefix.

(** [strings.Index]: the index of the first instance of [substr] in [s],
    [None] for Go's [-1]. *)
Fixpoint Index (s substr : list byte) : option nat :=
  if HasPrefix s substr then Some 0
  else match s with
       | [] => None
       | _ :: s' => S <$> Index s' substr
       end.

(** [strings.Contains]: [Index(s, substr) >= 0]. *)
Definition Contains (s substr : list byte) : bool :=
  match Index s substr with Some _ => true | None => false end.

(** [strings.Count] for a non-empty [substr]: the loop
    [i := Index(s, substr); if i == -1 return n; n++; s = s[i+len(substr):]].
    Every round drops at least one byte, so [length s] rounds are enough
    ([Count_loop_fuel]). *)
Fixpoint Count_loop (fuel : nat) (s substr : list byte) : nat :=
  match fuel with
  | 0 => 0
  | S fuel' =>
      match Index s substr with
      | None => 0
      | Some i => S (Count_loop fuel' (drop (i + length substr) s) substr)
      end
  end.

Definition Count (s substr : list byte) : nat := Count_loop (length s) s substr.

(** The loop of [genSplit] with [sepSave = 0]; [n] is the number of cuts
    still allowed ([for i < n]), the last element is the rest [a[i] = s]. *)
Fixpoint genSplit_loop (n : nat) (s sep : list byte) : list (list byte) :=
  match n with
  | 0 => [s]
  | S n' =>
      match Index s sep with
      | None => [s]
      | Some m => take m s :: genSplit_loop n' (drop (m + length sep) s) sep
      end
  end.

(** [strings.Split(s, sep)] = [genSplit(s, sep, 0, -1)] for a non-empty
    [sep]: [n = Count(s, sep) + 1], capped at [len(s) + 1], and [n - 1]
    cuts.  The only call passes [programDataPrefix]; the branch for an
    empty separator (one element per UTF-8 sequence) is not part of the
    model and every lemma on [Split] assumes [sep <> []]. *)
Definition Split (s sep : list byte) : list (list byte) :=
  let n := Nat.min (Count s sep + 1) (length s + 1) in
  genSplit_loop (n - 1) s sep.

End Strings.

(** ** Errors and results *)

(** The error values the code builds ([fmt.Errorf]) or receives from a
    library.  [ErrWrapped msg e] is [fmt.Errorf(msg + ": %w", e)]. *)
Inductive error : Type :=
| ErrLibrary (what : string)
| ErrNoProgramData
| ErrDataTooShort (expected got : nat)
| ErrInvalidDiscriminator (expected got : list byte)
| ErrWrapped (msg : string) (cause : error).

(** What a call does: it returns a value, returns a non-nil [error], or
    panics (a slice expression out of range). *)
Inductive outcome (A : Type) : Type :=
| Return (a : A)
| Failure (e : error)
| Panic.
Arguments Return {A} a.
Arguments Failure {A} e.
Arguments Panic {A}.

(** Slice expressions with Go's bounds check. *)
Definition slice_to (data : list byte) (hi : nat) : option (list byte) :=
  if hi <=? length data then Some (take hi data) else None.

Definition slice_from (data : list byte) (lo : nat) : option (list byte) :=
  if lo <=? length data then Some (drop lo data) else None.

(** ** Configuration constants of [stream.go] *)

Definition logIdentifier : list byte := bytes_of "G3KpTd7r".
Definition programDataPrefix : list byte := bytes_of "Program data: ".

(** [reconnectDelay = 2 * time.Second], in nanoseconds as [time.Duration]. *)
Definition reconnectDelay : Z := 2 * 1000000000.

Definition creationDiscriminator : list byte :=
  [x1b; x72; xa9; x4d; xde; xeb; x63; x76].

(** ** [extractProgramData] *)

Definition extractProgramData (log : list byte) : outcome (list byte) :=
  let parts := Strings.Split log programDataPrefix in
  if length parts <? 2 then Failure ErrNoProgramData
  else match parts !! 1 with
       | Some p => Return p
       | None => Panic
       end.

(** ** The Borsh decoder of [gagliardetto/binary]

    A decoder is a cursor over the remaining input: every read returns the
    value and the rest, or the library's error.  The library checks the
    remaining length before every read, so a read never panics. *)

Definition Dec (A : Type) : Type := list byte -> outcome (A * list byte).

Definition dec_ret {A} (a : A) : Dec A := fun data => Return (a, data).

Definition dec_bind {A B} (m : Dec A) (k : A -> Dec B) : Dec B :=
  fun data =>
    match m data with
    | Return (a, rest) => k a rest
    | Failure e => Failure e
    | Panic => Panic
    end.

Declare Scope dec_scope.
Delimit Scope dec_scope with dec.
Notation "'let*' x := m 'in' k" := (dec_bind m (fun x => k))
  (at level 10, x name, m at level 100, k at level 200) : dec_scope.

Module Borsh.

(** [binary.LittleEndian.Uint32(b)]:
    [b[0] | b[1]<<8 | b[2]<<16 | b[3]<<24]. *)
Definition Uint32 (b0 b1 b2 b3 : byte) : Z :=
  Z.lor (Z.lor (Z.lor (Z.of_N (Byte.to_N b0))
                      (Z.shiftl (Z.of_N (Byte.to_N b1)) 8))
               (Z.shiftl (Z.of_N (Byte.to_N b2)) 16))
        (Z.shiftl (Z.of_N (Byte.to_N b3)) 24).

(** [Decoder.ReadUint32(LE)]. *)
Definition ReadUint32 : Dec Z := fun data =>
  match data with
  | b0 :: b1 :: b2 :: b3 :: rest => Return (Uint32 b0 b1 b2 b3, rest)
  | _ => Failure (ErrLibrary "uint32 required [4] bytes")
  end.

(** [Decoder.ReadNBytes(n)]. *)
Definition ReadNBytes (n : Z) : Dec (list byte) := fun data =>
  if (n <=? Z.of_nat (length data))%Z
  then Return (take (Z.to_nat n) data, drop (Z.to_nat n) data)
  else Failure (ErrLibrary "unexpected EOF").

(** The largest length the decoder reads: [0x7FFFFFFF]. *)
Definition max_length : Z := 0x7FFFFFFF.

(** The length of a Borsh string or sequence: a little-endian [uint32];
    the decoder returns an error on a value above [0x7FFFFFFF]. *)
Definition ReadLength : Dec Z :=
  (let* n := ReadUint32 in
   fun data =>
     if (max_length <? n)%Z then Failure (ErrLibrary "unexpected EOF")
     else Return (n, data))%dec.

(** A Borsh string: its length, then that many bytes, converted with
    [string(bytes)] (no validation). *)
Definition ReadString : Dec (list byte) :=
  (let* n := ReadLength in ReadNBytes n)%dec.

(** A fixed-size array of [uint8]: [n] elements, one after the other. *)
Fixpoint ReadArray (n : nat) : Dec (vec byte n) :=
  match n with
  | 0 => dec_ret [#]
  | S n' => fun data =>
      match data with
      | [] => Failure (ErrLibrary "unexpected EOF")
      | b :: data' => (let* v := ReadArray n' in dec_ret (b ::: v))%dec data'
      end
  end.

End Borsh.

(** A type the Borsh decoder can fill in by reflection: the decoder of its
    layout. *)
Class BorshDecode (T : Type) : Type := borsh_decode : Dec T.

(** [solana.PublicKey] is [[32]byte]. *)
Definition PublicKey : Type := vec byte 32.

#[global] Instance PublicKey_BorshDecode : BorshDecode PublicKey :=
  Borsh.ReadArray 32.

(** ** The event records of [stream.go] *)

Record RawEvent : Type := {
  Name : list byte;
  Symbol : list byte;
  Uri : list byte;
  Mint : PublicKey
}.

Module CreateEvent.
Record t : Type := {
  Name : list byte;
  Symbol : list byte;
  Uri : list byte;
  Mint : list byte
}.
End CreateEvent.

(** The struct decoder visits the fields in declaration order. *)
#[global] Instance RawEvent_BorshDecode : BorshDecode RawEvent :=
  (let* name := Borsh.ReadString in
   let* symbol := Borsh.ReadString in
   let* uri := Borsh.ReadString in
   let* mint := borsh_decode (T := PublicKey) in
   dec_ret {| Name := name; Symbol := symbol; Uri := uri; Mint := mint |})%dec.

(** ** The decoder file *)

(** [bin.NewBorshDecoder(data).Decode(dst)]: bytes left over after the
    value are ignored. *)
Definition DecodeBorsh {T} `{BorshDecode T} (data : list byte) : outcome T :=
  match borsh_decode data with
  | Return (v, _) => Return v
  | Failure e => Failure e
  | Panic => Panic
  end.

Definition DecodeBase64 {T} `{BorshDecode T}
    (data discriminator : list byte) : outcome T :=
  if length data <? length discriminator then
    Failure (ErrDataTooShort (length discriminator) (length data))
  else
    match slice_to data (length discriminator) with
    | None => Panic
    | Some head =>
        if negb (Strings.Equal head discriminator) then
          match slice_to data (length discriminator) with
          | None => Panic
          | Some got => Failure (ErrInvalidDiscriminator discriminator got)
          end
        else
          match slice_from data (length discriminator) with
          | None => Panic
          | Some payload =>
              match DecodeBorsh payload with
              | Return event => Return event
              | Failure err =>
                  Failure (ErrWrapped "failed to decode Borsh payload" err)
              | Panic => Panic
              end
          end
    end.

(** ** Library calls of the pipeline

    [encoding/base64], the base58 encoder behind [PublicKey.String] and
    [encoding/json] are outside the repository: the pipeline is stated over
    any implementation of them.  A library call returns a value or an
    error. *)

Inductive result (A : Type) : Type :=
| Ok (a : A)
| Err (e : error).
Arguments Ok {A} a.
Arguments Err {A} e.

Class Libraries : Type := {
  (** [base64.StdEncoding.DecodeString] *)
  base64_DecodeString : list byte -> result (list byte);
  (** [base58.Encode] *)
  base58_Encode : list byte -> list byte;
  (** [json.Marshal] on a [CreateEvent] *)
  json_Marshal : CreateEvent.t -> result (list byte)
}.

(** [PublicKey.String]: [base58.Encode(p[:])]. *)
Definition PublicKey_String `{L : Libraries} (p : PublicKey) : list byte :=
  base58_Encode (vec_to_list p).

(** ** What the upstream listener does to the outside *)

Inductive Printed : Type :=
| PStarting
| PConnectionError (err : error)
| PReconnecting (d : Z)
| PConnected
| PSubscribed
| PErrorProcessingLog (err : error)
| PNewToken (marshalled : list byte).

Inductive Effect : Type :=
| Stdout (p : Printed)
| ws_Connect
| socket_Close
| LogsSubscribeMentions
| sub_Recv
| time_Sleep (d : Z)
| go_sendMessageToAllClients (message : list byte).

(** ** [processLog]

    The effects of the call, and how it ends: [Return tt] is [return nil]. *)
Definition processLog `{L : Libraries} (log : list byte)
    : list Effect * outcome unit :=
  if negb (Strings.Contains log logIdentifier) then ([], Return tt)
  else
    match extractProgramData log with
    | Panic => ([], Panic)
    | Failure err =>
        ([], Failure (ErrWrapped "failed to extract program data" err))
    | Return data =>
        match base64_DecodeString data with
        | Err err =>
            ([], Failure (ErrWrapped "failed to decode base64 data" err))
        | Ok decoded =>
            if negb (Strings.HasPrefix decoded creationDiscriminator)
            then ([], Return tt)
            else
              match DecodeBase64 (T := RawEvent) decoded creationDiscriminator with
              | Panic => ([], Panic)
              | Failure err =>
                  ([], Failure (ErrWrapped "failed to decode event" err))
              | Return event =>
                  let createEvent :=
                    {| CreateEvent.Name := Name event;
                       CreateEvent.Symbol := Symbol event;
                       CreateEvent.Uri := Uri event;
                       CreateEvent.Mint := PublicKey_String (Mint event) |} in
                  match json_Marshal createEvent with
                  | Err err =>
                      ([], Failure (ErrWrapped "failed to marshal event" err))
                  | Ok marshalled =>
                      ([Stdout (PNewToken marshalled);
                        go_sendMessageToAllClients marshalled],
                       Return tt)
                  end
              end
        end
    end.

(** ** The upstream connector *)

(** The inner loop of [listenForMessages] over [message.Value.Logs]: an
    error of [processLog] is printed and the loop goes on; only a panic
    stops it. *)
Fixpoint processLogs `{L : Libraries} (logs : list (list byte))
    : list Effect * outcome unit :=
  match logs with
  | [] => ([], Return tt)
  | log :: logs' =>
      match processLog log with
      | (tr, Panic) => (tr, Panic)
      | (tr, Failure err) =>
          let '(tr', r) := processLogs logs' in
          (tr ++ Stdout (PErrorProcessingLog err) :: tr', r)
      | (tr, Return _) =>
          let '(tr', r) := processLogs logs' in (tr ++ tr', r)
      end
  end.

(** [listenForMessages] has one exit, the error of [sub.Recv].  Its run is
    fixed by the messages received before [Recv] fails and by that error. *)
Fixpoint listenForMessages `{L : Libraries}
    (messages : list (list (list byte))) (recv_err : error)
    : list Effect * outcome unit :=
  match messages with
  | [] => ([sub_Recv], Failure (ErrWrapped "error receiving message" recv_err))
  | logs :: messages' =>
      match processLogs logs with
      | (tr, Return _) =>
          let '(tr', r) := listenForMessages messages' recv_err in
          (sub_Recv :: tr ++ tr', r)
      | (tr, r) => (sub_Recv :: tr, r)
      end
  end.

(** How the upstream ends one call of [connectAndListen]: the phase that
    fails, and for the stream phase the messages delivered before. *)
Inductive Upstream : Type :=
| ConnectFails (err : error)
| SubscribeFails (err : error)
| RecvFails (messages : list (list (list byte))) (err : error).

Definition connectAndListen `{L : Libraries} (u : Upstream)
    : list Effect * outcome unit :=
  match u with
  | ConnectFails err =>
      ([ws_Connect], Failure (ErrWrapped "failed to connect to WebSocket" err))
  | SubscribeFails err =>
      ([ws_Connect; Stdout PConnected; LogsSubscribeMentions; socket_Close],
       Failure (ErrWrapped "failed to subscribe to logs" err))
  | RecvFails messages err =>
      let '(tr, r) := listenForMessages messages err in
      ([ws_Connect; Stdout PConnected; LogsSubscribeMentions;
        Stdout PSubscribed] ++ tr ++ [socket_Close], r)
  end.

(** The [for] loop of [listenToNewPairs] against the successive failures of
    the upstream.  The loop has no exit: when the scripted failures are
    used up it is inside the next [connectAndListen], whose first action
    is [ws.Connect].  A panic unwinds the goroutine and ends the trace. *)
Fixpoint listenToNewPairs_loop `{L : Libraries} (script : list Upstream)
    : list Effect :=
  match script with
  | [] => [ws_Connect]
  | u :: script' =>
      match connectAndListen u with
      | (tr, Failure err) =>
          tr ++ [Stdout (PConnectionError err);
                 Stdout (PReconnecting reconnectDelay);
                 time_Sleep reconnectDelay]
             ++ listenToNewPairs_loop script'
      | (tr, Return _) => tr ++ listenToNewPairs_loop script'
      | (tr, Panic) => tr
      end
  end.

Definition listenToNewPairs `{L : Libraries} (script : list Upstream)
    : list Effect :=
  Stdout PStarting :: listenToNewPairs_loop script.

(** ** The WebSocket server file *)

Definition pingMessage : list byte := bytes_of "ping".

(** The raw string literal [{"message":"pong"}]; [x22] is the double quote. *)
Definition pongResponse : list byte :=
  [x7b; x22] ++ bytes_of "message" ++ [x22; x3a; x22] ++ bytes_of "pong"
             ++ [x22; x7d].

(** [websocket.TextMessage]. *)
Definition TextMessage : Z := 1.

(** A [*websocket.Conn]: the identity of the connection and what
    [conn.RemoteAddr().String()] returns for it. *)
Record Conn : Type := {
  conn_handle : nat;
  RemoteAddr : list byte
}.

#[global] Instance Conn_eq_dec : EqDecision Conn.
Proof. solve_decision. Defined.

(** A [*Client].  [handleConnection] allocates one per connection, so the
    connection identifies it; its [Mutex] is driven by the operations
    below. *)
Record Client : Type := { Connection : Conn }.

#[global] Instance Client_eq_dec : EqDecision Client.
Proof. solve_decision. Defined.

Inductive LogLine : Type :=
| LUpgradeFailed (err : error)
| LNewConnection (address : list byte)
| LClientAdded (address : list byte)
| LReadError (address : list byte) (err : error)
| LPongFailed (address : list byte) (err : error)
| LSendFailed (address : list byte) (err : error)
| LDisconnected (address : list byte).

(** The operations on shared objects other than the registry. *)
Inductive Op : Type :=
| Mutex_Lock (c : Client)
| Mutex_Unlock (c : Client)
| WriteMessage (conn : Conn) (messageType : Z) (data : list byte)
| conn_Close (conn : Conn)
| log_Printf (l : LogLine).

(** The two closures started with [go]. *)
Inductive Goroutine : Type :=
| Deliver (c : Client) (message : list byte)
| Pong (client : Client) (address : list byte).

(** The body of a goroutine, given what its [WriteMessage] returns.  The
    deferred [Unlock] runs last. *)
Definition run_goroutine (g : Goroutine) (w : result unit) : list Op :=
  match g with
  | Deliver c message =>
      [Mutex_Lock c; WriteMessage (Connection c) TextMessage message]
      ++ match w with
         | Err err => [log_Printf (LSendFailed (RemoteAddr (Connection c)) err)]
         | Ok _ => []
         end
      ++ [Mutex_Unlock c]
  | Pong client address =>
      [Mutex_Lock client;
       WriteMessage (Connection client) TextMessage pongResponse]
      ++ match w with
         | Err err => [log_Printf (LPongFailed address err)]
         | Ok _ => []
         end
      ++ [Mutex_Unlock client]
  end.

(** The shared state: the registry [ConnectedClients], the goroutines
    started and not yet run, and the operations performed so far. *)
Record Server : Type := {
  ConnectedClients : gmap (list byte) Client;
  spawned : list Goroutine;
  performed : list Op
}.

Definition Server_init : Server :=
  {| ConnectedClients := ∅; spawned := []; performed := [] |}.

(** [sendMessageToAllClients]: [Range] copies the clients into
    [allClients], then one goroutine per element. *)
Definition allClients (s : Server) : list Client :=
  (map_to_list (ConnectedClients s)).*2.

Definition sendMessageToAllClients (message : list byte) (s : Server) : Server :=
  {| ConnectedClients := ConnectedClients s;
     spawned := spawned s ++ ((fun c => Deliver c message) <$> allClients s);
     performed := performed s |}.

(** [handleConnection] in its three parts: up to the [Store], one round of
    the read loop on a frame read without error, and the exit on a read
    error. *)
Definition handleConnection_register (conn : Conn) (s : Server) : Server :=
  let address := RemoteAddr conn in
  let client := {| Connection := conn |} in
  {| ConnectedClients := <[address := client]> (ConnectedClients s);
     spawned := spawned s;
     performed := performed s ++ [log_Printf (LNewConnection address);
                                  log_Printf (LClientAdded address)] |}.

Definition handleConnection_frame (conn : Conn) (message : list byte)
    (s : Server) : Server :=
  let address := RemoteAddr conn in
  let client := {| Connection := conn |} in
  if Strings.Contains message pingMessage then
    {| ConnectedClients := ConnectedClients s;
       spawned := spawned s ++ [Pong client address];
       performed := performed s |}
  else s.

Definition handleConnection_exit (conn : Conn) (err : error) (s : Server)
    : Server :=
  let address := RemoteAddr conn in
  {| ConnectedClients := delete address (ConnectedClients s);
     spawned := spawned s;
     performed := performed s ++ [log_Printf (LReadError address err);
                                  log_Printf (LDisconnected address)] |}.

(** [handleConnection] run alone: the frames read before [ReadMessage]
    fails, then the failure. *)
Definition handleConnection (conn : Conn) (frames : list (Z * list byte))
    (err : error) (s : Server) : Server :=
  handleConnection_exit conn err
    (foldl (fun s frame => handleConnection_frame conn frame.2 s)
           (handleConnection_register conn s) frames).

(** The server as a transition system: the goroutines of the handlers, of
    the broadcaster and of the deliveries interleave at these steps. *)
Inductive Event : Type :=
| EvUpgradeFailed (err : error)
| EvUpgrade (conn : Conn)
| EvRead (conn : Conn) (messageType : Z) (message : list byte)
| EvReadError (conn : Conn) (err : error)
| EvBroadcast (message : list byte)
| EvRun (i : nat) (w : result unit).

Definition step (s : Server) (ev : Event) : Server :=
  match ev with
  | EvUpgradeFailed err =>
      {| ConnectedClients := ConnectedClients s;
         spawned := spawned s;
         performed := performed s ++ [log_Printf (LUpgradeFailed err)] |}
  | EvUpgrade conn => handleConnection_register conn s
  | EvRead conn _ message => handleConnection_frame conn message s
  | EvReadError conn err =>
      let s' := handleConnection_exit conn err s in
      {| ConnectedClients := ConnectedClients s';
         spawned := spawned s';
         performed := performed s' ++ [conn_Close conn] |}
  | EvBroadcast message => sendMessageToAllClients message s
  | EvRun i w =>
      match spawned s !! i with
      | None => s
      | Some g =>
          {| ConnectedClients := ConnectedClients s;
             spawned := delete i (spawned s);
             performed := performed s ++ run_goroutine g w |}
      end
  end.

Definition run (evs : list Event) (s : Server) : Server := foldl step s evs.

(** The writes a sequence of operations attempts. *)
Definition writes (ops : list Op) : list (Conn * list byte) :=
  omap (fun op => match op with
                  | WriteMessage conn _ data => Some (conn, data)
                  | _ => None
                  end) ops.

(** Running a list of goroutines in the given order, the write of the one
    on connection [conn] returning [w conn]. *)
Definition run_all (gs : list Goroutine) (w : Conn -> result unit) : list Op :=
  mjoin ((fun g => run_goroutine g
                     (w match g with
                        | Deliver c _ => Connection c
                        | Pong c _ => Connection c
                        end)) <$> gs).

(** A connection is inside its read loop after a trace: it was upgraded and
    its [ReadMessage] has not failed since. *)
Definition in_read_loop (conn : Conn) (evs : list Event) : bool :=
  foldl (fun b ev =>
           match ev with
           | EvUpgrade c => if decide (c = conn) then true else b
           | EvReadError c _ => if decide (c = conn) then false else b
           | _ => b
           end) false evs.

(** An event that stores or deletes under the address of [conn] on behalf
    of another handler, or that ends the read loop of [conn]. *)
Definition disturbs (conn : Conn) (ev : Event) : bool :=
  match ev with
  | EvUpgrade c =>
      bool_decide (RemoteAddr c = RemoteAddr conn) && negb (bool_decide (c = conn))
  | EvReadError c _ => bool_decide (RemoteAddr c = RemoteAddr conn)
  | _ => false
  end.

(** ** The upstream's binary layout

    The encoding the round trip is stated against: the creation
    discriminator, then the Borsh encoding of the record, fields in the
    order name, symbol, uri, mint.  A Borsh string carries its length as a
    little-endian [uint32] and the decoder reads no length above
    [0x7FFFFFFF], so the layout stops there: a text of [2^31] bytes or
    more has no encoding. *)

Module Layout.

Definition byte_of_Z (z : Z) : byte :=
  default x00 (Byte.of_N (Z.to_N (z mod 256))).

Definition PutUint32 (n : Z) : list byte :=
  [byte_of_Z n; byte_of_Z (Z.shiftr n 8);
   byte_of_Z (Z.shiftr n 16); byte_of_Z (Z.shiftr n 24)].

Definition encode_string (s : list byte) : option (list byte) :=
  if (Z.of_nat (length s) <=? Borsh.max_length)%Z
  then Some (PutUint32 (Z.of_nat (length s)) ++ s)
  else None.

Definition encode_RawEvent (ev : RawEvent) : option (list byte) :=
  name ← encode_string (Name ev);
  symbol ← encode_string (Symbol ev);
  uri ← encode_string (Uri ev);
  Some (name ++ symbol ++ uri ++ vec_to_list (Mint ev)).

Definition encode (ev : RawEvent) : option (list byte) :=
  (creationDiscriminator ++.) <$> encode_RawEvent ev.

End Layout.

(** ** Reference implementations of the library calls

    Used to run the pipeline on concrete log lines. *)

Module Reference.

Definition code (b : byte) : Z := Z.of_N (Byte.to_N b).

(** The value of a character of the standard base64 alphabet. *)
Definition b64_value (c : byte) : option Z :=
  let n := code c in
  if ((65 <=? n) && (n <=? 90))%Z then Some (n - 65)%Z
  else if ((97 <=? n) && (n <=? 122))%Z then Some (n - 97 + 26)%Z
  else if ((48 <=? n) && (n <=? 57))%Z then Some (n - 48 + 52)%Z
  else if (n =? 43)%Z then Some 62%Z
  else if (n =? 47)%Z then Some 63%Z
  else None.

Definition corrupt : error := ErrLibrary "illegal base64 data".

(** Quanta of four characters; padding only in the last one. *)
Fixpoint b64_quanta (cs : list byte) : result (list byte) :=
  match cs with
  | [] => Ok []
  | c1 :: c2 :: c3 :: c4 :: rest =>
      match b64_value c1, b64_value c2 with
      | Some v1, Some v2 =>
          let o1 := Layout.byte_of_Z (v1 * 4 + v2 / 16) in
          match b64_value c3, b64_value c4 with
          | Some v3, Some v4 =>
              match b64_quanta rest with
              | Ok out =>
                  Ok (o1 :: Layout.byte_of_Z (v2 * 16 + v3 / 4)
                         :: Layout.byte_of_Z (v3 * 64 + v4) :: out)
              | Err e => Err e
              end
          | Some v3, None =>
              if bool_decide (c4 = "="%byte) && bool_decide (rest = [])
              then Ok [o1; Layout.byte_of_Z (v2 * 16 + v3 / 4)]
              else Err corrupt
          | None, _ =>
              if bool_decide (c3 = "="%byte) && bool_decide (c4 = "="%byte)
                 && bool_decide (rest = [])
              then Ok [o1]
              else Err corrupt
          end
      | _, _ => Err corrupt
      end
  | _ => Err corrupt
  end.

(** [StdEncoding.DecodeString] skips carriage returns and line feeds. *)
Definition std_DecodeString (s : list byte) : result (list byte) :=
  b64_quanta (filter (fun c => c <> x0d /\ c <> x0a) s).

Definition b58_alphabet : list byte :=
  bytes_of "123456789ABCDEFGHJKLMNPQRSTUVWXYZabcdefghijkmnopqrstuvwxyz".

Definition be_value (bs : list byte) : Z :=
  foldl (fun acc b => (acc * 256 + code b)%Z) 0%Z bs.

Fixpoint b58_digits (fuel : nat) (n : Z) (acc : list byte) : list byte :=
  match fuel with
  | 0 => acc
  | S fuel' =>
      if (n =? 0)%Z then acc
      else b58_digits fuel' (n / 58)%Z
             (default x00 (b58_alphabet !! Z.to_nat (n mod 58)) :: acc)
  end.

Fixpoint leading_zeros (bs : list byte) : nat :=
  match bs with
  | x00 :: bs' => S (leading_zeros bs')
  | _ => 0
  end.

(** Base58 with the Bitcoin alphabet: one ['1'] per leading zero byte, then
    the digits of the big-endian value. *)
Definition b58_Encode (bs : list byte) : list byte :=
  replicate (leading_zeros bs) "1"%byte
    ++ b58_digits (2 * length bs) (be_value bs) [].

Definition hex_digit (n : Z) : byte :=
  default x00 (bytes_of "0123456789abcdef" !! Z.to_nat n).

(** The escapes of [encoding/json] for a byte below [0x80]; bytes from
    [0x80] on are copied. *)
Definition json_escape (b : byte) : list byte :=
  let n := code b in
  if bool_decide (b = x22) then [x5c; x22]
  else if bool_decide (b = x5c) then [x5c; x5c]
  else if bool_decide (b = x0a) then [x5c; "n"%byte]
  else if bool_decide (b = x0d) then [x5c; "r"%byte]
  else if bool_decide (b = x09) then [x5c; "t"%byte]
  else if bool_decide (b = x08) then [x5c; "b"%byte]
  else if bool_decide (b = x0c) then [x5c; "f"%byte]
  else if (n <? 32)%Z || bool_decide (b = "<"%byte)
          || bool_decide (b = ">"%byte) || bool_decide (b = "&"%byte)
  then [x5c; "u"%byte; "0"%byte; "0"%byte; hex_digit (n / 16); hex_digit (n mod 16)]
  else [b].

Definition json_string (s : list byte) : list byte :=
  [x22] ++ mjoin (json_escape <$> s) ++ [x22].

Definition json_field (key value : list byte) : list byte :=
  json_string key ++ [x3a] ++ json_string value.

Definition marshal_CreateEvent (e : CreateEvent.t) : result (list byte) :=
  Ok ([x7b] ++ json_field (bytes_of "name") (CreateEvent.Name e)
      ++ [x2c] ++ json_field (bytes_of "symbol") (CreateEvent.Symbol e)
      ++ [x2c] ++ json_field (bytes_of "uri") (CreateEvent.Uri e)
      ++ [x2c] ++ json_field (bytes_of "mint") (CreateEvent.Mint e)
      ++ [x7d]).

Definition libraries : Libraries :=
  {| base64_DecodeString := std_DecodeString;
     base58_Encode := b58_Encode;
     json_Marshal := marshal_CreateEvent |}.

End Reference.

(** * Concrete inputs and measures used in the statements *)

(** A line in which the prefix text occurs twice. *)
Definition twice_prefixed_line : list byte :=
  bytes_of "Program data: AProgram data: B".

(** The record of the example scenario of the specification. *)
Definition example_event : RawEvent :=
  {| Name := bytes_of "Foo";
     Symbol := bytes_of "FOO";
     Uri := bytes_of "ipfs://x";
     Mint := [# x01; x02; x03; x04; x05; x06; x07; x08;
                x09; x0a; x0b; x0c; x0d; x0e; x0f; x10;
                x11; x12; x13; x14; x15; x16; x17; x18;
                x19; x1a; x1b; x1c; x1d; x1e; x1f; x20] |}.

Definition example_encoded : list byte :=
  creationDiscriminator
  ++ [x03; x00; x00; x00] ++ bytes_of "Foo"
  ++ [x03; x00; x00; x00] ++ bytes_of "FOO"
  ++ [x08; x00; x00; x00] ++ bytes_of "ipfs://x"
  ++ vec_to_list (Mint example_event).

(** The line of the example scenario: the marker is the base64 text of the
    first six bytes of the discriminator. *)
Definition example_line : list byte :=
  bytes_of "Program data: G3KpTd7rY3YDAAAARm9vAwAAAEZPTwgAAABpcGZzOi8veAECAwQFBgcICQoLDA0ODxAREhMUFRYXGBkaGxwdHh8g".

Definition example_payload : list byte :=
  bytes_of "G3KpTd7rY3YDAAAARm9vAwAAAEZPTwgAAABpcGZzOi8veAECAwQFBgcICQoLDA0ODxAREhMUFRYXGBkaGxwdHh8g".

Definition example_mint_text : list byte :=
  bytes_of "4wBqpZM9xaSheZzJSMawUKKwhdpChKbZ5eu5ky4Vigw".

Definition example_marshalled : list byte :=
  Eval vm_compute in
    match Reference.marshal_CreateEvent
            {| CreateEvent.Name := bytes_of "Foo";
               CreateEvent.Symbol := bytes_of "FOO";
               CreateEvent.Uri := bytes_of "ipfs://x";
               CreateEvent.Mint := example_mint_text |} with
    | Ok m => m
    | Err _ => []
    end.





(** Neither a connection attempt nor a sleep. *)
Definition quiet (e : Effect) : Prop :=
  match e with ws_Connect | time_Sleep _ => False | _ => True end.

(** The connection a goroutine writes to and the bytes it writes. *)
Definition target (g : Goroutine) : Conn * list byte :=
  match g with
  | Deliver c message => (Connection c, message)
  | Pong client _ => (Connection client, pongResponse)
  end.

(** Connections for the examples: [conn_a] and [conn_b] are two
    connections with one remote address, [conn_c] has its own. *)
Definition conn_a : Conn :=
  {| conn_handle := 1; RemoteAddr := bytes_of "203.0.113.7:51000" |}.
Definition conn_b : Conn :=
  {| conn_handle := 2; RemoteAddr := bytes_of "203.0.113.7:51000" |}.
Definition conn_c : Conn :=
  {| conn_handle := 3; RemoteAddr := bytes_of "198.51.100.4:40022" |}.

(** A registry with the two clients [conn_a] and [conn_c], and one delivery
    goroutine waiting. *)
Definition two_clients : Server :=
  {| ConnectedClients :=
       <[RemoteAddr conn_a := {| Connection := conn_a |}]>
         (<[RemoteAddr conn_c := {| Connection := conn_c |}]> ∅);
     spawned := [Deliver {| Connection := conn_a |} (bytes_of "{}")];
     performed := [] |}.

(** An upgrade or a read-loop exit of another connection that has the
    remote address of [conn]. *)
Definition another_on_address (conn : Conn) (ev : Event) : bool :=
  match ev with
  | EvUpgrade c | EvReadError c _ =>
      bool_decide (RemoteAddr c = RemoteAddr conn) && negb (bool_decide (c = conn))
  | _ => false
  end.

(** The last clause of C8 as stated, for one step: a client that is in
    the registry before the step and not after it has had the read error
    of its own read loop in that step. *)
Definition removal_claim (s : Server) (ev : Event) : Prop :=
  forall conn,
    ConnectedClients s !! RemoteAddr conn = Some {| Connection := conn |} ->
    ConnectedClients (step s ev) !! RemoteAddr conn
      <> Some {| Connection := conn |} ->
    exists err, ev = EvReadError conn err.

(** C9 as stated: after any trace from the empty server, every connection
    that is inside its read loop is in the registry under its address. *)
Definition membership_claim (evs : list Event) : Prop :=
  forall conn,
    in_read_loop conn evs = true ->
    ConnectedClients (run evs Server_init) !! RemoteAddr conn
      = Some {| Connection := conn |}.

(** * The rest of the server file, the feed page and further measures *)

(** [HandleWebSocket]: a failed upgrade is logged and nothing else
    happens; otherwise [handleConnection] runs on the connection and the
    deferred [conn.Close] follows.  [frames] and [err] are what
    [ReadMessage] returns on that connection. *)
Definition HandleWebSocket (upgrade : result Conn)
    (frames : list (Z * list byte)) (err : error) (s : Server) : Server :=
  match upgrade with
  | Err e =>
      {| ConnectedClients := ConnectedClients s;
         spawned := spawned s;
         performed := performed s ++ [log_Printf (LUpgradeFailed e)] |}
  | Ok conn =>
      let s' := handleConnection conn frames err s in
      {| ConnectedClients := ConnectedClients s';
         spawned := spawned s';
         performed := performed s' ++ [conn_Close conn] |}
  end.

(** The events of one call of [HandleWebSocket] whose upgrade succeeds. *)
Definition session (conn : Conn) (frames : list (Z * list byte)) (err : error)
    : list Event :=
  EvUpgrade conn :: ((fun frame => EvRead conn frame.1 frame.2) <$> frames)
    ++ [EvReadError conn err].

(** The feed page ([app/cosmo/page.tsx]): the [onmessage] handler of the
    socket.  [JSON.parse] is a parameter; it throws ([None]) on text that
    is not JSON, and the [catch] leaves the state as it is.  Otherwise
    [setTokens((prev) => [data, ...prev].slice(0, 50))]. *)
Module Cosmo.
Section Feed.
Context {Data TokenInfo : Type} (JSON_parse : Data -> option TokenInfo).

Definition onmessage (prev : list TokenInfo) (event_data : Data)
    : list TokenInfo :=
  match JSON_parse event_data with
  | Some data => take 50 (data :: prev)
  | None => prev
  end.

(** The state after the messages received since the page was mounted
    ([useState([])]). *)
Definition tokens (events : list Data) : list TokenInfo :=
  foldl onmessage [] events.

End Feed.
End Cosmo.

(** The messages a trace hands to the broadcaster, in order. *)
Definition broadcasts (tr : list Effect) : list (list byte) :=
  omap (fun e => match e with
                 | go_sendMessageToAllClients m => Some m
                 | _ => None
                 end) tr.

(** The errors a trace prints as [Error processing log], in order. *)
Definition line_errors (tr : list Effect) : list error :=
  omap (fun e => match e with
                 | Stdout (PErrorProcessingLog err) => Some err
                 | _ => None
                 end) tr.

Definition is_Close (e : Effect) : bool :=
  match e with socket_Close => true | _ => false end.

(** The sockets a trace closes. *)
Definition closes (tr : list Effect) : nat :=
  length (List.filter is_Close tr).

(** The upstream got as far as an open socket. *)
Definition established (u : Upstream) : bool :=
  match u with ConnectFails _ => false | _ => true end.

(** The lines the upstream delivered in one call, in order. *)
Definition delivered (u : Upstream) : list (list byte) :=
  match u with
  | RecvFails messages _ => mjoin messages
  | _ => []
  end.

(** The error of the phase that fails, with the message
    [connectAndListen] and [listenForMessages] put before it. *)
Definition phase_error (u : Upstream) : error :=
  match u with
  | ConnectFails err => ErrWrapped "failed to connect to WebSocket" err
  | SubscribeFails err => ErrWrapped "failed to subscribe to logs" err
  | RecvFails _ err => ErrWrapped "error receiving message" err
  end.

(** The errors a trace prints as [Connection error], in order. *)
Definition connection_errors (tr : list Effect) : list error :=
  omap (fun e => match e with
                 | Stdout (PConnectionError err) => Some err
                 | _ => None
                 end) tr.

Definition is_Recv (e : Effect) : bool :=
  match e with sub_Recv => true | _ => false end.

(** The calls of [sub.Recv] in a trace. *)
Definition receives (tr : list Effect) : nat :=
  length (List.filter is_Recv tr).

(** What one line contributes to the stream: the messages [processLog]
    hands to the broadcaster on it, and the error it returns, if any. *)
Definition line_broadcasts `{L : Libraries} (log : list byte)
    : list (list byte) :=
  broadcasts (processLog log).1.

Definition line_error `{L : Libraries} (log : list byte) : option error :=
  match (processLog log).2 with
  | Failure err => Some err
  | _ => None
  end.

(** Every entry of the registry is filed under the remote address of its
    own connection. *)
Definition registry_keyed (s : Server) : Prop :=
  forall id c, ConnectedClients s !! id = Some c ->
               RemoteAddr (Connection c) = id.

(** An upgrade of a connection with the remote address [id]. *)
Definition upgrades_address (id : list byte) (ev : Event) : bool :=
  match ev with
  | EvUpgrade c => bool_decide (RemoteAddr c = id)
  | _ => false
  end.

(** The lock discipline on a sequence of operations, [held] being the
    clients whose mutex is taken: a mutex is taken only when it is free,
    a write is a text message to the connection of a client whose mutex
    is held, an unlock releases a mutex that is held, and at the end no
    mutex is held. *)
Fixpoint lock_disciplined (held : list Client) (ops : list Op) : bool :=
  match ops with
  | [] => bool_decide (held = [])
  | Mutex_Lock c :: ops' =>
      bool_decide (c ∉ held) && lock_disciplined (c :: held) ops'
  | Mutex_Unlock c :: ops' =>
      bool_decide (c ∈ held)
      && lock_disciplined (filter (fun c' => c' <> c) held) ops'
  | WriteMessage conn messageType _ :: ops' =>
      bool_decide ({| Connection := conn |} ∈ held)
      && bool_decide (messageType = TextMessage)
      && lock_disciplined held ops'
  | _ :: ops' => lock_disciplined held ops'
  end.

(** * Properties *)

(** ** [strings.Index], [strings.Split] *)

Module StringsFacts.
Import Strings.

Lemma HasPrefix_true (s p : list byte) :
  HasPrefix s p = true <-> take (length p) s = p.
Proof.
  unfold HasPrefix, Equal. rewrite andb_true_iff, bool_decide_eq_true.
  split; [tauto|]. intros E; split; [|done].
  apply Nat.leb_le. rewrite <- E at 1. rewrite length_take. lia.
Qed.

Lemma HasPrefix_app (p t : list byte) : HasPrefix (p ++ t) p = true.
Proof. apply HasPrefix_true. by rewrite take_app_length. Qed.

Lemma HasPrefix_nil (p : list byte) : p <> [] -> HasPrefix [] p = false.
Proof.
  intros Hp. apply not_true_is_false. rewrite HasPrefix_true.
  destruct p; [done|]. by rewrite take_nil.
Qed.

(** [Index] finds an instance: the bytes at [i] are [sep]. *)
Lemma Index_Some (s sep : list byte) (i : nat) :
  Index s sep = Some i ->
  s = take i s ++ sep ++ drop (i + length sep) s.
Proof.
  revert i. induction s as [|b s IH]; intros i.
  - simpl. destruct (HasPrefix [] sep) eqn:E; [|done].
    intros [= <-]. apply HasPrefix_true in E. rewrite take_nil in E.
    subst sep. done.
  - cbn [Index]. destruct (HasPrefix (b :: s) sep) eqn:E.
    + intros [= <-]. apply HasPrefix_true in E.
      cbn [take app Nat.add].
      transitivity (take (length sep) (b :: s) ++ drop (length sep) (b :: s));
        [by rewrite take_drop | by rewrite E].
    + destruct (Index s sep) as [j|] eqn:Ej; [|done].
      intros [= <-]. cbn [take drop Nat.add app]. f_equal. by apply IH.
Qed.

(** [Index] finds the first one: [sep] starts at no earlier position. *)
Lemma Index_first (s sep : list byte) (i j : nat) :
  Index s sep = Some i -> j < i -> HasPrefix (drop j s) sep = false.
Proof.
  revert i j. induction s as [|b s IH]; intros i j.
  - simpl. destruct (HasPrefix [] sep); [|done]. intros [= <-]. lia.
  - cbn [Index]. destruct (HasPrefix (b :: s) sep) eqn:E.
    + intros [= <-]. lia.
    + destruct (Index s sep) as [k|] eqn:Ek; [|done].
      intros [= <-] Hj. destruct j as [|j]; [done|].
      cbn [drop]. eapply IH; [done|lia].
Qed.

Lemma Index_None (s sep : list byte) (j : nat) :
  Index s sep = None -> HasPrefix (drop j s) sep = false.
Proof.
  revert j. induction s as [|b s IH]; intros j.
  - rewrite drop_nil. simpl. by destruct (HasPrefix [] sep).
  - cbn [Index]. destruct (HasPrefix (b :: s) sep) eqn:E; [done|].
    destruct (Index s sep) eqn:Ek; [done|]. intros _.
    destruct j as [|j]; [done|]. cbn [drop]. by apply IH.
Qed.

Lemma Index_length (s sep : list byte) (i : nat) :
  Index s sep = Some i -> i + length sep <= length s.
Proof.
  revert i. induction s as [|b s IH]; intros i; cbn [Index].
  - destruct (HasPrefix [] sep) eqn:E; [|done]. intros [= <-].
    apply HasPrefix_true in E. rewrite take_nil in E. by subst sep.
  - destruct (HasPrefix (b :: s) sep) eqn:E.
    + intros [= <-]. apply andb_true_iff in E as [E _].
      apply Nat.leb_le in E. lia.
    + destruct (Index s sep) as [k|] eqn:Ek; [|done].
      intros [= <-]. specialize (IH k eq_refl). simpl. lia.
Qed.

Lemma Contains_true (s sep : list byte) :
  Contains s sep = true <-> exists i, Index s sep = Some i.
Proof.
  unfold Contains. destruct (Index s sep); split; eauto; try done.
  by intros [? ?].
Qed.

Lemma Contains_false (s sep : list byte) :
  Contains s sep = false <-> Index s sep = None.
Proof. unfold Contains. by destruct (Index s sep). Qed.

Lemma Count_loop_le (fuel : nat) (s sep : list byte) :
  Count_loop fuel s sep <= fuel.
Proof.
  revert s. induction fuel as [|fuel IH]; intros s; simpl; [lia|].
  destruct (Index s sep); [|lia]. specialize (IH (drop (n + length sep) s)). lia.
Qed.

(** Any fuel from [length s] on gives the same count. *)
Lemma Count_loop_fuel (sep : list byte) (f1 f2 : nat) (s : list byte) :
  sep <> [] -> length s <= f1 -> length s <= f2 ->
  Count_loop f1 s sep = Count_loop f2 s sep.
Proof.
  intros Hsep. revert f2 s. induction f1 as [|f1 IH]; intros f2 s H1 H2.
  - destruct s; [|simpl in H1; lia]. destruct f2; simpl; [done|].
    by rewrite HasPrefix_nil.
  - destruct f2 as [|f2].
    + destruct s; [|simpl in H2; lia]. simpl. by rewrite HasPrefix_nil.
    + cbn [Count_loop]. destruct (Index s sep) as [i|] eqn:Ei; [|done].
      f_equal. pose proof (Index_length _ _ _ Ei).
      assert (0 < length sep) by (destruct sep; [done|simpl; lia]).
      apply IH; rewrite length_drop; lia.
Qed.

(** [Split] cuts at the first instance and splits the rest. *)
Lemma Split_unfold (s sep : list byte) :
  sep <> [] ->
  Split s sep =
    match Index s sep with
    | None => [s]
    | Some i => take i s :: Split (drop (i + length sep) s) sep
    end.
Proof.
  intros Hsep. unfold Split, Count.
  pose proof (Count_loop_le (length s) s sep) as Hle.
  rewrite Nat.min_l by lia.
  replace (Count_loop (length s) s sep + 1 - 1) with (Count_loop (length s) s sep) by lia.
  destruct (Index s sep) as [i|] eqn:Ei.
  - pose proof (Index_length _ _ _ Ei).
    assert (0 < length sep) by (destruct sep; [done|simpl; lia]).
    destruct (length s) as [|n] eqn:En; [lia|].
    cbn [Count_loop]. rewrite Ei. cbn [genSplit_loop]. rewrite Ei. f_equal.
    set (rest := drop (i + length sep) s).
    assert (length rest <= n) by (unfold rest; rewrite length_drop; lia).
    pose proof (Count_loop_le (length rest) rest sep).
    rewrite Nat.min_l by lia.
    rewrite (Count_loop_fuel sep n (length rest)) by (done || lia).
    f_equal. lia.
  - destruct (length s); simpl; [done|]. by rewrite Ei.
Qed.

Lemma Split_head (s sep : list byte) :
  sep <> [] ->
  Split s sep !! 0 =
    Some (match Index s sep with None => s | Some j => take j s end).
Proof. intros Hsep. rewrite Split_unfold by done. by destruct (Index s sep). Qed.

Lemma Split_length (s sep : list byte) :
  sep <> [] ->
  length (Split s sep) < 2 <-> Index s sep = None.
Proof.
  intros Hsep. rewrite Split_unfold by done.
  destruct (Index s sep) as [i|]; [|simpl; split; [done|lia]].
  pose proof (Split_head (drop (i + length sep) s) sep Hsep) as Hh.
  apply lookup_lt_Some in Hh. simpl. split; [lia|done].
Qed.

End StringsFacts.

(** ** The log filter *)

Lemma programDataPrefix_nonempty : programDataPrefix <> [].
Proof. done. Qed.

(** [extractProgramData] in closed form: the text between the first
    instance of the prefix and the next one. *)
Lemma extractProgramData_eq (log : list byte) :
  extractProgramData log =
    match Strings.Index log programDataPrefix with
    | None => Failure ErrNoProgramData
    | Some i =>
        let rest := drop (i + length programDataPrefix) log in
        Return (match Strings.Index rest programDataPrefix with
                | None => rest
                | Some j => take j rest
                end)
    end.
Proof.
  unfold extractProgramData.
  pose proof (StringsFacts.Split_length log _ programDataPrefix_nonempty) as Hlen.
  rewrite StringsFacts.Split_unfold in * by apply programDataPrefix_nonempty.
  destruct (Strings.Index log programDataPrefix) as [i|] eqn:Ei.
  - destruct (Nat.ltb_spec (length (take i log
        :: Strings.Split (drop (i + length programDataPrefix) log) programDataPrefix)) 2)
      as [Hlt|_].
    + by apply Hlen in Hlt.
    + cbn [lookup list_lookup].
      change ((take i log :: ?l) !! 1) with (l !! 0).
      by rewrite StringsFacts.Split_head by apply programDataPrefix_nonempty.
  - done.
Qed.

Lemma extractProgramData_no_panic (log : list byte) :
  extractProgramData log <> Panic.
Proof.
  rewrite extractProgramData_eq.
  by destruct (Strings.Index log programDataPrefix).
Qed.

(** ** The payload decoder *)

Module BorshFacts.
Import Borsh Layout.

Lemma code_byte_of_Z (z : Z) :
  Z.of_N (Byte.to_N (byte_of_Z z)) = (z mod 2 ^ 8)%Z.
Proof.
  unfold byte_of_Z. change (2 ^ 8)%Z with 256%Z.
  pose proof (Z.mod_pos_bound z 256 eq_refl).
  destruct (Byte.of_N (Z.to_N (z mod 256))) as [b|] eqn:E; simpl.
  - apply Byte.to_of_N in E. rewrite E. lia.
  - apply Byte.of_N_None_iff in E. lia.
Qed.

Lemma Uint32_PutUint32 (n : Z) :
  (0 <= n < 2 ^ 32)%Z ->
  Uint32 (byte_of_Z n) (byte_of_Z (Z.shiftr n 8))
         (byte_of_Z (Z.shiftr n 16)) (byte_of_Z (Z.shiftr n 24)) = n.
Proof.
  intros Hn. unfold Uint32. rewrite !code_byte_of_Z.
  apply Z.bits_inj'. intros i Hi.
  assert (Hhigh : (32 <= i)%Z -> Z.testbit n i = false).
  { intros. rewrite <- (Z.mod_small n (2 ^ 32)) by lia.
    apply Z.mod_pow2_bits_high. lia. }
  rewrite !Z.lor_spec, !Z.shiftl_spec by lia.
  rewrite !Z.testbit_mod_pow2 by lia.
  destruct (Z_lt_dec i 8); [|destruct (Z_lt_dec i 16);
    [|destruct (Z_lt_dec i 24); [|destruct (Z_lt_dec i 32)]]];
  repeat match goal with
  | |- context [Z.testbit (Z.shiftr ?a ?k) ?j] =>
      first [ rewrite (Z.testbit_neg_r (Z.shiftr a k) j) by lia
            | rewrite (Z.shiftr_spec a k j) by lia ]
  end;
  repeat match goal with
  | |- context [(?a <? ?b)%Z] => destruct (Z.ltb_spec a b); try lia
  end;
  cbn [andb orb]; rewrite ?orb_false_r, ?andb_false_r; cbn [andb orb];
  try (f_equal; lia).
  symmetry; apply Hhigh; lia.
Qed.

Lemma ReadString_encode (s enc rest : list byte) :
  encode_string s = Some enc ->
  ReadString (enc ++ rest) = Return (s, rest).
Proof.
  unfold encode_string, max_length.
  destruct (Z.leb_spec (Z.of_nat (length s)) 0x7FFFFFFF); [|done].
  intros [= <-]. unfold ReadString, ReadLength, dec_bind, PutUint32, max_length.
  cbn [app ReadUint32]. rewrite Uint32_PutUint32 by lia.
  destruct (Z.ltb_spec 0x7FFFFFFF (Z.of_nat (length s))); [lia|].
  unfold ReadNBytes. rewrite length_app.
  destruct (Z.leb_spec (Z.of_nat (length s)) (Z.of_nat (length s + length rest)));
    [|lia].
  rewrite Nat2Z.id. by rewrite take_app_length, drop_app_length.
Qed.



Lemma ReadArray_no_panic (n : nat) (data : list byte) :
  ReadArray n data <> Panic.
Proof.
  revert data. induction n as [|n IH]; intros data; [done|].
  cbn [ReadArray]. destruct data as [|b data]; [done|].
  unfold dec_bind. specialize (IH data).
  by destruct (ReadArray n data) as [[v rest]| |].
Qed.

Lemma ReadString_no_panic (data : list byte) : ReadString data <> Panic.
Proof.
  unfold ReadString, ReadLength, dec_bind, ReadUint32, ReadNBytes.
  destruct data as [|? [|? [|? [|? rest]]]]; try done.
  destruct (_ <? _)%Z; [done|]. by destruct (_ <=? _)%Z.
Qed.

Lemma RawEvent_decode_no_panic (data : list byte) :
  DecodeBorsh (T := RawEvent) data <> Panic.
Proof.
  unfold DecodeBorsh, borsh_decode, RawEvent_BorshDecode, dec_bind.
  pose proof (ReadString_no_panic data).
  destruct (ReadString data) as [[name r1]| |]; [|done|done].
  pose proof (ReadString_no_panic r1).
  destruct (ReadString r1) as [[symbol r2]| |]; [|done|done].
  pose proof (ReadString_no_panic r2).
  destruct (ReadString r2) as [[uri r3]| |]; [|done|done].
  unfold borsh_decode, PublicKey_BorshDecode.
  pose proof (ReadArray_no_panic 32 r3).
  by destruct (ReadArray 32 r3) as [[mint r4]| |].
Qed.

End BorshFacts.

(** [DecodeBase64] with the slice expressions resolved: after the length
    guard both are in range. *)
Lemma DecodeBase64_eq {T} `{BorshDecode T} (data discriminator : list byte) :
  DecodeBase64 data discriminator =
    if length data <? length discriminator then
      Failure (ErrDataTooShort (length discriminator) (length data))
    else if negb (Strings.Equal (take (length discriminator) data) discriminator)
    then Failure (ErrInvalidDiscriminator discriminator
                    (take (length discriminator) data))
    else match DecodeBorsh (drop (length discriminator) data) with
         | Return event => Return event
         | Failure err => Failure (ErrWrapped "failed to decode Borsh payload" err)
         | Panic => Panic
         end.
Proof.
  unfold DecodeBase64, slice_to, slice_from.
  destruct (Nat.ltb_spec (length data) (length discriminator)); [done|].
  by rewrite (proj2 (Nat.leb_le _ _)) by lia.
Qed.

(** ** Claims on the decoder and the log filter *)

(** C4 (as amended).  For every log line that contains the prefix text,
    with [i] the index of its first instance (the prefix starts at no
    earlier position) and [rest] the line after that instance: the payload
    is [rest] cut at the next instance of the prefix inside [rest], and it
    is the whole of [rest] exactly when the prefix text does not occur
    again. *)
Theorem extractProgramData_payload (log : list byte) :
  Strings.Contains log programDataPrefix = true ->
  exists i,
    Strings.Index log programDataPrefix = Some i /\
    (forall j, j < i ->
       Strings.HasPrefix (drop j log) programDataPrefix = false) /\
    let rest := drop (i + length programDataPrefix) log in
    log = take i log ++ programDataPrefix ++ rest /\
    extractProgramData log =
      Return (match Strings.Index rest programDataPrefix with
              | None => rest
              | Some j => take j rest
              end) /\
    (Strings.Contains rest programDataPrefix = false <->
     extractProgramData log = Return rest).
Proof.
  intros Hc. apply StringsFacts.Contains_true in Hc as [i Hi].
  exists i. split; [done|].
  split; [intros j Hj; by apply (StringsFacts.Index_first _ _ i)|].
  intros rest. split; [by apply StringsFacts.Index_Some|].
  rewrite extractProgramData_eq, Hi. cbv zeta. fold rest. split; [done|].
  rewrite StringsFacts.Contains_false.
  destruct (Strings.Index rest programDataPrefix) as [j|] eqn:Ej; [|by split].
  split; [done|]. intros [= E].
  pose proof (StringsFacts.Index_length _ _ _ Ej) as Hlen.
  apply (f_equal length) in E. rewrite length_take in E.
  change (length programDataPrefix) with 14 in Hlen. lia.
Qed.

Lemma extractProgramData_payload_witness :
  exists i,
    Strings.Index twice_prefixed_line programDataPrefix = Some i /\
    (forall j, j < i ->
       Strings.HasPrefix (drop j twice_prefixed_line) programDataPrefix = false) /\
    let rest := drop (i + length programDataPrefix) twice_prefixed_line in
    twice_prefixed_line = take i twice_prefixed_line ++ programDataPrefix ++ rest /\
    extractProgramData twice_prefixed_line =
      Return (match Strings.Index rest programDataPrefix with
              | None => rest
              | Some j => take j rest
              end) /\
    (Strings.Contains rest programDataPrefix = false <->
     extractProgramData twice_prefixed_line = Return rest).
Proof. apply (extractProgramData_payload twice_prefixed_line). reflexivity. Defined.

(** C4 as stated fails: on a line with the prefix text twice, the payload
    is not the entire remainder after the first instance. *)
Lemma extractProgramData_not_remainder :
  Strings.Contains twice_prefixed_line programDataPrefix = true /\
  Strings.Index twice_prefixed_line programDataPrefix = Some 0 /\
  extractProgramData twice_prefixed_line = Return (bytes_of "A") /\
  extractProgramData twice_prefixed_line
    <> Return (drop (0 + length programDataPrefix) twice_prefixed_line).
Proof. repeat split; try reflexivity. discriminate. Qed.

(** C10.  [DecodeBase64] returns on every input: an input shorter than the
    discriminator gets the error of the length guard, an input whose
    leading bytes differ gets the discriminator error, and no slice
    expression is out of range, so the call panics only if the Borsh
    decoder of the target type does; for [RawEvent] it never does. *)
Theorem DecodeBase64_never_panics {T} `{BorshDecode T}
    (data discriminator : list byte) :
  (length data < length discriminator ->
   DecodeBase64 data discriminator =
     Failure (ErrDataTooShort (length discriminator) (length data))) /\
  (length discriminator <= length data ->
   take (length discriminator) data <> discriminator ->
   DecodeBase64 data discriminator =
     Failure (ErrInvalidDiscriminator discriminator
                (take (length discriminator) data))) /\
  (Strings.HasPrefix data discriminator = false ->
   exists err, DecodeBase64 data discriminator = Failure err) /\
  (DecodeBase64 data discriminator = Panic ->
   DecodeBorsh (drop (length discriminator) data) = Panic) /\
  DecodeBase64 (T := RawEvent) data discriminator <> Panic.
Proof.
  rewrite !DecodeBase64_eq. unfold Strings.HasPrefix, Strings.Equal.
  destruct (Nat.ltb_spec (length data) (length discriminator)) as [Hlt|Hge].
  - repeat split; try done; try lia. eauto.
  - rewrite (proj2 (Nat.leb_le _ _)) by lia. cbn [andb].
    destruct (bool_decide_reflect (take (length discriminator) data = discriminator))
      as [E|E]; cbn [negb].
    + repeat split; try done; try lia.
      * by destruct (DecodeBorsh _).
      * pose proof (BorshFacts.RawEvent_decode_no_panic
                      (drop (length discriminator) data)).
        by destruct (DecodeBorsh (T := RawEvent) _).
    + repeat split; try done; try lia. eauto.
Qed.

Lemma DecodeBase64_never_panics_witness :
  DecodeBase64 (T := RawEvent) [x1b; x72] creationDiscriminator
    = Failure (ErrDataTooShort 8 2) /\
  DecodeBase64 (T := RawEvent)
      [x01; x02; x03; x04; x05; x06; x07; x08; x09] creationDiscriminator
    = Failure (ErrInvalidDiscriminator creationDiscriminator
                 [x01; x02; x03; x04; x05; x06; x07; x08]).
Proof.
  split.
  - apply (DecodeBase64_never_panics (T := RawEvent) [x1b; x72]
             creationDiscriminator). simpl. lia.
  - apply (DecodeBase64_never_panics (T := RawEvent)
             [x01; x02; x03; x04; x05; x06; x07; x08; x09]
             creationDiscriminator); [simpl; lia | discriminate].
Defined.



Lemma encode_string_defined (s : list byte) :
  (Z.of_nat (length s) <= Borsh.max_length)%Z ->
  is_Some (Layout.encode_string s).
Proof.
  intros Hs. unfold Layout.encode_string.
  destruct (Z.leb_spec (Z.of_nat (length s)) Borsh.max_length); [eauto|lia].
Qed.

(** Every record whose three texts are at most [0x7FFFFFFF] bytes long has
    an encoding. *)
Lemma encode_defined (ev : RawEvent) :
  (Z.of_nat (length (Name ev)) <= Borsh.max_length)%Z ->
  (Z.of_nat (length (Symbol ev)) <= Borsh.max_length)%Z ->
  (Z.of_nat (length (Uri ev)) <= Borsh.max_length)%Z ->
  is_Some (Layout.encode ev).
Proof.
  intros Hn Hs Hu. unfold Layout.encode, Layout.encode_RawEvent.
  destruct (encode_string_defined _ Hn) as [? ->].
  destruct (encode_string_defined _ Hs) as [? ->].
  destruct (encode_string_defined _ Hu) as [? ->]. cbn. eauto.
Qed.

(** ** Claims on [processLog] *)




(** [processLog] case by case. *)
Lemma processLog_eq `{L : Libraries} (log : list byte) :
  processLog log =
    if negb (Strings.Contains log logIdentifier) then ([], Return tt)
    else
      match extractProgramData log with
      | Panic => ([], Panic)
      | Failure err =>
          ([], Failure (ErrWrapped "failed to extract program data" err))
      | Return data =>
          match base64_DecodeString data with
          | Err err =>
              ([], Failure (ErrWrapped "failed to decode base64 data" err))
          | Ok decoded =>
              if negb (Strings.HasPrefix decoded creationDiscriminator)
              then ([], Return tt)
              else
                match DecodeBorsh (T := RawEvent)
                        (drop (length creationDiscriminator) decoded) with
                | Panic => ([], Panic)
                | Failure err =>
                    ([], Failure
                           (ErrWrapped "failed to decode event"
                              (ErrWrapped "failed to decode Borsh payload" err)))
                | Return event =>
                    match json_Marshal
                            {| CreateEvent.Name := Name event;
                               CreateEvent.Symbol := Symbol event;
                               CreateEvent.Uri := Uri event;
                               CreateEvent.Mint := PublicKey_String (Mint event) |} with
                    | Err err =>
                        ([], Failure (ErrWrapped "failed to marshal event" err))
                    | Ok marshalled =>
                        ([Stdout (PNewToken marshalled);
                          go_sendMessageToAllClients marshalled], Return tt)
                    end
                end
          end
      end.
Proof.
  unfold processLog.
  destruct (negb (Strings.Contains log logIdentifier)); [done|].
  destruct (extractProgramData log) as [data| |]; [|done|done].
  destruct (base64_DecodeString data) as [decoded|]; [|done].
  destruct (Strings.HasPrefix decoded creationDiscriminator) eqn:Hp; [|done].
  cbn [negb]. rewrite DecodeBase64_eq.
  unfold Strings.HasPrefix in Hp. apply andb_true_iff in Hp as [Hlen Heq].
  apply Nat.leb_le in Hlen.
  destruct (Nat.ltb_spec (length decoded) (length creationDiscriminator)); [lia|].
  rewrite Heq. cbn [negb].
  by destruct (DecodeBorsh (T := RawEvent) _).
Qed.

Lemma processLog_no_panic `{L : Libraries} (log : list byte) :
  (processLog log).2 <> Panic.
Proof.
  rewrite processLog_eq.
  destruct (negb (Strings.Contains log logIdentifier)); [done|].
  pose proof (extractProgramData_no_panic log).
  destruct (extractProgramData log) as [data| |]; [|done|done].
  destruct (base64_DecodeString data) as [decoded|]; [|done].
  destruct (negb (Strings.HasPrefix decoded creationDiscriminator)); [done|].
  pose proof (BorshFacts.RawEvent_decode_no_panic
                (drop (length creationDiscriminator) decoded)).
  destruct (DecodeBorsh (T := RawEvent) _) as [event| |]; [|done|done].
  by destruct (json_Marshal _).
Qed.

(** C3.  With [json.Marshal] succeeding on every [CreateEvent] (a struct
    of four strings has no failing case), [processLog] returns an error
    exactly when the line has the marker and either lacks the prefix, or
    its extracted payload is not valid base64, or the payload decodes to
    bytes that start with the discriminator and whose Borsh
    deserialization fails.  A line without the marker, and a marked line
    whose decoded bytes do not start with the discriminator, return [nil]
    with no effect at all; an error comes with no event; the call never
    panics. *)
Theorem processLog_error_iff `{L : Libraries} (log : list byte) :
  (forall e, exists marshalled, json_Marshal e = Ok marshalled) ->
  ((exists err, (processLog log).2 = Failure err) <->
   Strings.Contains log logIdentifier = true /\
   (Strings.Contains log programDataPrefix = false \/
    exists data, extractProgramData log = Return data /\
      ((exists err, base64_DecodeString data = Err err) \/
       (exists decoded err,
          base64_DecodeString data = Ok decoded /\
          Strings.HasPrefix decoded creationDiscriminator = true /\
          DecodeBorsh (T := RawEvent)
            (drop (length creationDiscriminator) decoded) = Failure err)))) /\
  (Strings.Contains log logIdentifier = false ->
   processLog log = ([], Return tt)) /\
  (forall data decoded,
     Strings.Contains log logIdentifier = true ->
     extractProgramData log = Return data ->
     base64_DecodeString data = Ok decoded ->
     Strings.HasPrefix decoded creationDiscriminator = false ->
     processLog log = ([], Return tt)) /\
  (forall err, (processLog log).2 = Failure err -> (processLog log).1 = []) /\
  (processLog log).2 <> Panic.
Proof.
  intros Hjson. split; [|split; [|split; [|split]]].
  - rewrite processLog_eq, extractProgramData_eq.
    rewrite StringsFacts.Contains_false.
    destruct (Strings.Contains log logIdentifier); cbn [negb].
    2:{ split; [by intros [? ?]|by intros [? _]]. }
    destruct (Strings.Index log programDataPrefix) as [i|]; cbv zeta.
    2:{ split; [auto|]. intros _. cbn. eauto. }
    set (data := match Strings.Index _ programDataPrefix with
                 | Some j => _ | None => _ end).
    destruct (base64_DecodeString data) as [decoded|e] eqn:Hb.
    2:{ split; [|cbn; eauto]. intros _. split; [done|]. right.
        exists data. split; [done|]. left. eauto. }
    destruct (Strings.HasPrefix decoded creationDiscriminator) eqn:Hp; cbn [negb].
    2:{ split; [by intros [? ?]|]. intros [_ [?|(d & [= <-] & [[? ?]|(? & ? & ? & ? & _)])]];
        congruence. }
    destruct (DecodeBorsh (T := RawEvent) _) as [event|e|] eqn:Hd.
    + destruct (Hjson {| CreateEvent.Name := Name event;
                         CreateEvent.Symbol := Symbol event;
                         CreateEvent.Uri := Uri event;
                         CreateEvent.Mint := PublicKey_String (Mint event) |})
        as [m ->].
      split; [by intros [? ?]|].
      intros [_ [?|(d & [= <-] & [[? ?]|(? & ? & ? & ? & ?)])]]; congruence.
    + split; [|cbn; eauto]. intros _. split; [done|]. right.
      exists data. split; [done|]. right. eauto.
    + split; [by intros [? ?]|].
      intros [_ [?|(d & [= <-] & [[? ?]|(? & ? & ? & ? & ?)])]]; congruence.
  - intros Hm. unfold processLog. by rewrite Hm.
  - intros data decoded Hm Hdata Hb Hp. unfold processLog.
    by rewrite Hm, Hdata, Hb, Hp.
  - intros err. rewrite processLog_eq.
    destruct (negb (Strings.Contains log logIdentifier)); [done|].
    destruct (extractProgramData log) as [data| |]; [|done|done].
    destruct (base64_DecodeString data) as [decoded|]; [|done].
    destruct (negb (Strings.HasPrefix decoded creationDiscriminator)); [done|].
    destruct (DecodeBorsh (T := RawEvent) _) as [event| |]; [|done|done].
    by destruct (json_Marshal _).
  - apply processLog_no_panic.
Qed.

Lemma marshal_CreateEvent_total (e : CreateEvent.t) :
  exists marshalled, Reference.marshal_CreateEvent e = Ok marshalled.
Proof. eexists. reflexivity. Qed.

Lemma processLog_error_iff_witness :
  processLog (L := Reference.libraries) (bytes_of "Program log: Instruction: Buy")
    = ([], Return tt) /\
  exists err,
    (processLog (L := Reference.libraries) (bytes_of "Program log: G3KpTd7r")).2
      = Failure err.
Proof.
  split.
  - apply (processLog_error_iff (L := Reference.libraries)
             (bytes_of "Program log: Instruction: Buy") marshal_CreateEvent_total).
    reflexivity.
  - apply (processLog_error_iff (L := Reference.libraries)
             (bytes_of "Program log: G3KpTd7r") marshal_CreateEvent_total).
    split; [reflexivity | left; reflexivity].
Defined.

(** ** The recovery loop *)

Module LoopFacts.






Lemma processLog_quiet `{L : Libraries} (log : list byte) :
  Forall quiet (processLog log).1.
Proof.
  rewrite processLog_eq.
  destruct (negb (Strings.Contains log logIdentifier)); [done|].
  destruct (extractProgramData log) as [data| |]; [|done|done].
  destruct (base64_DecodeString data) as [decoded|]; [|done].
  destruct (negb (Strings.HasPrefix decoded creationDiscriminator)); [done|].
  destruct (DecodeBorsh (T := RawEvent) _) as [event| |]; [|done|done].
  destruct (json_Marshal _); [|done]. by repeat constructor.
Qed.

Lemma processLogs_returns `{L : Libraries} (logs : list (list byte)) :
  (processLogs logs).2 = Return tt /\ Forall quiet (processLogs logs).1.
Proof.
  induction logs as [|log logs [IHr IHq]]; [done|].
  cbn [processLogs].
  pose proof (processLog_no_panic log) as Hp.
  pose proof (processLog_quiet log) as Hq.
  destruct (processLog log) as [tr [[]|err|]]; [| |done];
    destruct (processLogs logs) as [tr' r]; cbn in *;
    (split; [done|]); apply Forall_app; repeat constructor; done.
Qed.

Lemma listenForMessages_fails `{L : Libraries}
    (messages : list (list (list byte))) (err : error) :
  (listenForMessages messages err).2
    = Failure (ErrWrapped "error receiving message" err) /\
  Forall quiet (listenForMessages messages err).1.
Proof.
  induction messages as [|logs messages [IHr IHq]].
  - split; [done|]. by repeat constructor.
  - cbn [listenForMessages].
    destruct (processLogs_returns logs) as [Hr Hq].
    destruct (processLogs logs) as [tr r]. cbn in Hr, Hq. subst r.
    destruct (listenForMessages messages err) as [tr' r']. cbn in *.
    split; [done|]. constructor; [done|]. by apply Forall_app.
Qed.

(** Every call of [connectAndListen] that returns, returns an error; its
    first action is the connection attempt, and it neither connects again
    nor sleeps. *)
Lemma connectAndListen_fails `{L : Libraries} (u : Upstream) :
  exists q err,
    connectAndListen u = (ws_Connect :: q, Failure err) /\ Forall quiet q.
Proof.
  destruct u as [err|err|messages err]; cbn [connectAndListen].
  - by eexists [], _.
  - eexists _, _. split; [done|]. by repeat constructor.
  - destruct (listenForMessages_fails messages err) as [Hr Hq].
    destruct (listenForMessages messages err) as [tr r]. cbn in Hr, Hq. subst r.
    eexists _, _. split; [done|].
    repeat (constructor; [done|]). apply Forall_app. split; [done|].
    by repeat constructor.
Qed.





End LoopFacts.


(** ** The client registry and the broadcaster *)

Module ServerFacts.

Lemma writes_run_goroutine (g : Goroutine) (w : result unit) :
  writes (run_goroutine g w) = [target g].
Proof. by destruct g, w. Qed.

Lemma writes_app (ops1 ops2 : list Op) :
  writes (ops1 ++ ops2) = writes ops1 ++ writes ops2.
Proof. apply omap_app. Qed.

Lemma writes_run_all (gs : list Goroutine) (w : Conn -> result unit) :
  writes (run_all gs w) = target <$> gs.
Proof.
  induction gs as [|g gs IH]; [done|].
  change (run_all (g :: gs) w)
    with (run_goroutine g (w match g with
                             | Deliver c _ => Connection c
                             | Pong c _ => Connection c
                             end) ++ run_all gs w).
  by rewrite writes_app, IH, writes_run_goroutine.
Qed.

Lemma step_registry (s : Server) (ev : Event) :
  ConnectedClients (step s ev) =
    match ev with
    | EvUpgrade conn =>
        <[RemoteAddr conn := {| Connection := conn |}]> (ConnectedClients s)
    | EvReadError conn _ => delete (RemoteAddr conn) (ConnectedClients s)
    | _ => ConnectedClients s
    end.
Proof.
  destruct ev as [| |conn mt message| | |i w]; try done.
  - cbn. unfold handleConnection_frame. by destruct (Strings.Contains _ _).
  - cbn. by destruct (spawned s !! i).
Qed.

(** The entry of a connection stays through every event that does not
    disturb it. *)
Lemma step_keeps (conn : Conn) (ev : Event) (s : Server) :
  disturbs conn ev = false ->
  ConnectedClients s !! RemoteAddr conn = Some {| Connection := conn |} ->
  ConnectedClients (step s ev) !! RemoteAddr conn = Some {| Connection := conn |}.
Proof.
  intros Hd Hs. rewrite step_registry.
  destruct ev as [|c|c mt message|c err| |i w]; try done.
  - cbn in Hd. apply andb_false_iff in Hd as [Hd|Hd].
    + apply bool_decide_eq_false in Hd. by rewrite lookup_insert_ne.
    + apply negb_false_iff, bool_decide_eq_true in Hd. subst c.
      by rewrite lookup_insert_eq.
  - cbn in Hd. apply bool_decide_eq_false in Hd. by rewrite lookup_delete_ne.
Qed.

Lemma run_keeps (conn : Conn) (evs : list Event) (s : Server) :
  Forall (fun ev => disturbs conn ev = false) evs ->
  ConnectedClients s !! RemoteAddr conn = Some {| Connection := conn |} ->
  ConnectedClients (run evs s) !! RemoteAddr conn = Some {| Connection := conn |}.
Proof.
  intros Hevs. revert s. induction Hevs as [|ev evs Hev _ IH]; intros s Hs; [done|].
  cbn [run foldl]. apply IH. by apply step_keeps.
Qed.

Lemma frames_spawned (conn : Conn) (frames : list (Z * list byte)) (s : Server) :
  let s' := foldl (fun s frame => handleConnection_frame conn frame.2 s) s frames in
  ConnectedClients s' = ConnectedClients s /\
  performed s' = performed s /\
  spawned s' =
    spawned s ++
    replicate (length (List.filter (fun f => Strings.Contains f.2 pingMessage) frames))
              (Pong {| Connection := conn |} (RemoteAddr conn)).
Proof.
  revert s. induction frames as [|[mt message] frames IH]; intros s.
  - cbn. by rewrite app_nil_r.
  - cbn [foldl List.filter]. cbv zeta in IH.
    destruct (IH (handleConnection_frame conn (mt, message).2 s)) as (-> & -> & ->).
    unfold handleConnection_frame. cbn [snd].
    destruct (Strings.Contains message pingMessage); [|done].
    cbn. by rewrite <- app_assoc.
Qed.

End ServerFacts.

(** C6.  A frame read by the read loop of a connection whose text contains
    "ping" starts exactly one goroutine; that goroutine takes the client's
    lock, writes exactly the bytes of [{"message":"pong"}] as a text
    message to that client's connection, and releases the lock, whether or
    not the write succeeds.  A frame without "ping" changes nothing: no
    goroutine, no write, same registry.  Over a whole run of
    [handleConnection] there is one such goroutine per frame with "ping". *)
Theorem handleConnection_ping (conn : Conn) (messageType : Z)
    (message : list byte) (s : Server) (w : result unit)
    (frames : list (Z * list byte)) (err : error) :
  (Strings.Contains message pingMessage = true ->
   step s (EvRead conn messageType message) =
     {| ConnectedClients := ConnectedClients s;
        spawned := spawned s ++ [Pong {| Connection := conn |} (RemoteAddr conn)];
        performed := performed s |}) /\
  (Strings.Contains message pingMessage = false ->
   step s (EvRead conn messageType message) = s) /\
  (exists logged,
     run_goroutine (Pong {| Connection := conn |} (RemoteAddr conn)) w =
       [Mutex_Lock {| Connection := conn |};
        WriteMessage conn TextMessage pongResponse]
       ++ logged ++ [Mutex_Unlock {| Connection := conn |}] /\
     writes logged = []) /\
  writes (run_goroutine (Pong {| Connection := conn |} (RemoteAddr conn)) w)
    = [(conn, pongResponse)] /\
  pongResponse = [x7b; x22; x6d; x65; x73; x73; x61; x67; x65; x22; x3a;
                  x22; x70; x6f; x6e; x67; x22; x7d] /\
  spawned (handleConnection conn frames err s) =
    spawned s ++
    replicate (length (List.filter (fun f => Strings.Contains f.2 pingMessage) frames))
              (Pong {| Connection := conn |} (RemoteAddr conn)).
Proof.
  split_and!.
  - intros Hp. cbn. unfold handleConnection_frame. by rewrite Hp.
  - intros Hp. cbn. unfold handleConnection_frame. by rewrite Hp.
  - destruct w as [[]|e];
      [exists [] | exists [log_Printf (LPongFailed (RemoteAddr conn) e)]];
      by split.
  - apply ServerFacts.writes_run_goroutine.
  - done.
  - unfold handleConnection, handleConnection_exit. cbn [spawned].
    by destruct (ServerFacts.frames_spawned conn frames
                   (handleConnection_register conn s)) as (_ & _ & ->).
Qed.

Lemma handleConnection_ping_witness :
  step Server_init (EvRead conn_c TextMessage (bytes_of "are you there? ping")) =
    {| ConnectedClients := ∅;
       spawned := [Pong {| Connection := conn_c |} (RemoteAddr conn_c)];
       performed := [] |} /\
  step Server_init (EvRead conn_c TextMessage (bytes_of "hello")) = Server_init.
Proof.
  split.
  - apply (handleConnection_ping conn_c TextMessage
             (bytes_of "are you there? ping") Server_init (Ok tt) []
             (ErrLibrary "EOF")).
    reflexivity.
  - apply (handleConnection_ping conn_c TextMessage (bytes_of "hello")
             Server_init (Ok tt) [] (ErrLibrary "EOF")).
    reflexivity.
Defined.

(** C7.  A broadcast over a registry of [N] clients starts exactly [N]
    delivery goroutines, one per client of the snapshot and each with the
    same message, for every [N] (none when the registry is empty).  In
    whatever order they run and whichever writes fail, the writes
    attempted are exactly one write of that message per snapshot client:
    what one delivery does depends on no other delivery. *)
Theorem sendMessageToAllClients_delivers (message : list byte) (s : Server)
    (w1 w2 : Conn -> result unit) (schedule : list Goroutine) :
  spawned (sendMessageToAllClients message s) =
    spawned s ++ ((fun c => Deliver c message) <$> allClients s) /\
  length (allClients s) = size (ConnectedClients s) /\
  (forall c, c ∈ allClients s <-> exists id, ConnectedClients s !! id = Some c) /\
  (schedule ≡ₚ (fun c => Deliver c message) <$> allClients s ->
   writes (run_all schedule w1)
     ≡ₚ (fun c => (Connection c, message)) <$> allClients s) /\
  writes (run_all ((fun c => Deliver c message) <$> allClients s) w1) =
    writes (run_all ((fun c => Deliver c message) <$> allClients s) w2) /\
  (ConnectedClients s = ∅ ->
   spawned (sendMessageToAllClients message s) = spawned s).
Proof.
  split_and!.
  - done.
  - unfold allClients. by rewrite length_fmap, length_map_to_list.
  - intros c. unfold allClients. split.
    + intros Hc. apply list_elem_of_fmap in Hc as ([id c'] & -> & Hc).
      apply elem_of_map_to_list in Hc. eauto.
    + intros [id Hc]. apply list_elem_of_fmap.
      exists (id, c). split; [done|]. by apply elem_of_map_to_list.
  - intros Hperm. rewrite ServerFacts.writes_run_all, Hperm.
    by rewrite <- list_fmap_compose.
  - by rewrite !ServerFacts.writes_run_all.
  - intros Hempty. cbn. unfold allClients. rewrite Hempty, map_to_list_empty.
    apply app_nil_r.
Qed.

Lemma sendMessageToAllClients_delivers_witness :
  writes (run_all (reverse ((fun c => Deliver c (bytes_of "{}"))
                              <$> allClients two_clients))
                  (fun conn => if decide (conn = conn_a)
                               then Err (ErrLibrary "broken pipe") else Ok tt))
    ≡ₚ (fun c => (Connection c, bytes_of "{}")) <$> allClients two_clients.
Proof.
  apply (sendMessageToAllClients_delivers (bytes_of "{}") two_clients
           (fun conn => if decide (conn = conn_a)
                        then Err (ErrLibrary "broken pipe") else Ok tt)
           (fun _ => Ok tt)
           (reverse ((fun c => Deliver c (bytes_of "{}"))
                       <$> allClients two_clients))).
  apply reverse_Permutation.
Defined.

(** C8 as stated fails in its last clause: a client also leaves the
    registry when a connection with its address is upgraded, the [Store]
    replacing it, with no read error of its own. *)
Lemma client_replaced_without_read_error :
  ~ removal_claim (run [EvUpgrade conn_a] Server_init) (EvUpgrade conn_b).
Proof.
  intros Hclaim. destruct (Hclaim conn_a) as [err Hev].
  - cbn. apply lookup_insert_eq.
  - cbn. change (RemoteAddr conn_b) with (RemoteAddr conn_a).
    rewrite lookup_insert_eq. discriminate.
  - discriminate.
Qed.

(** C8 (as amended).  Running a delivery goroutine, with a failed write or
    not, leaves the registry as it is, and so does the broadcast itself; a
    failed write only adds the log line between the write and the unlock.
    An address leaves the registry in one kind of step only, never a
    delivery, a broadcast, a frame or an upgrade: the exit, on a read
    error, of the read loop of a connection with that address.  And in a
    step that is not the upgrade or the exit of another connection with
    its address, a client leaves the registry only by the read error of
    its own read loop. *)
Theorem delivery_failure_keeps_registry (s : Server) (i : nat)
    (w : result unit) (message : list byte) (ev : Event) (id : list byte)
    (conn : Conn) :
  ConnectedClients (step s (EvRun i w)) = ConnectedClients s /\
  ConnectedClients (step s (EvBroadcast message)) = ConnectedClients s /\
  (forall c err,
     spawned s !! i = Some (Deliver c message) ->
     performed (step s (EvRun i (Err err))) =
       performed s ++
       [Mutex_Lock c; WriteMessage (Connection c) TextMessage message;
        log_Printf (LSendFailed (RemoteAddr (Connection c)) err);
        Mutex_Unlock c]) /\
  (is_Some (ConnectedClients s !! id) ->
   ConnectedClients (step s ev) !! id = None ->
   exists conn err, ev = EvReadError conn err /\ RemoteAddr conn = id) /\
  (ConnectedClients s !! RemoteAddr conn = Some {| Connection := conn |} ->
   another_on_address conn ev = false ->
   ConnectedClients (step s ev) !! RemoteAddr conn
     <> Some {| Connection := conn |} ->
   exists err, ev = EvReadError conn err).
Proof.
  split_and!.
  - by rewrite ServerFacts.step_registry.
  - by rewrite ServerFacts.step_registry.
  - intros c err Hg. cbn. by rewrite Hg.
  - intros [c Hc]. rewrite ServerFacts.step_registry.
    destruct ev as [|conn'|conn' mt m|conn' err| |j w']; try congruence.
    + intros Hn. apply lookup_insert_None in Hn as [Hn _]. congruence.
    + intros Hn. apply lookup_delete_None in Hn as [Hn|Hn]; [|congruence].
      eauto.
  - intros Hin Hother. rewrite ServerFacts.step_registry.
    destruct ev as [|c|c mt m|c err| |j w']; try done; cbn in Hother;
      apply andb_false_iff in Hother as [Ha|Hc].
    + apply bool_decide_eq_false in Ha. by rewrite lookup_insert_ne.
    + apply negb_false_iff, bool_decide_eq_true in Hc. subst c.
      by rewrite lookup_insert_eq.
    + apply bool_decide_eq_false in Ha. by rewrite lookup_delete_ne.
    + apply negb_false_iff, bool_decide_eq_true in Hc. subst c. eauto.
Qed.

Lemma delivery_failure_keeps_registry_witness :
  performed (step two_clients (EvRun 0 (Err (ErrLibrary "broken pipe")))) =
    [Mutex_Lock {| Connection := conn_a |};
     WriteMessage conn_a TextMessage (bytes_of "{}");
     log_Printf (LSendFailed (RemoteAddr conn_a) (ErrLibrary "broken pipe"));
     Mutex_Unlock {| Connection := conn_a |}] /\
  (exists conn err,
     EvReadError conn_c (ErrLibrary "EOF") = EvReadError conn err /\
     RemoteAddr conn = RemoteAddr conn_c) /\
  exists err, EvReadError conn_c (ErrLibrary "EOF") = EvReadError conn_c err.
Proof.
  destruct (delivery_failure_keeps_registry two_clients 0
              (Err (ErrLibrary "broken pipe")) (bytes_of "{}")
              (EvReadError conn_c (ErrLibrary "EOF")) (RemoteAddr conn_c)
              conn_c)
    as (_ & _ & Hlog & Hremoved & Hown).
  split_and!.
  - apply Hlog. reflexivity.
  - apply Hremoved.
    + unfold two_clients. cbn [ConnectedClients].
      rewrite lookup_insert_ne by discriminate. rewrite lookup_insert_eq. eauto.
    + rewrite ServerFacts.step_registry. apply lookup_delete_eq.
  - apply Hown.
    + unfold two_clients. cbn [ConnectedClients].
      rewrite lookup_insert_ne by discriminate. apply lookup_insert_eq.
    + cbn. rewrite bool_decide_eq_true_2 by done.
      by rewrite (bool_decide_eq_true_2 (conn_c = conn_c)).
    + rewrite ServerFacts.step_registry, lookup_delete_eq. discriminate.
Defined.

(** It fails when a second connection arrives from the address of one that
    is still reading: the [Store] replaces the first client, which is then
    inside its read loop and not in the registry. *)
Lemma membership_fails_on_shared_address :
  ~ membership_claim [EvUpgrade conn_a; EvUpgrade conn_b].
Proof.
  intros Hclaim. specialize (Hclaim conn_a eq_refl).
  cbn in Hclaim. rewrite lookup_insert_eq in Hclaim. discriminate.
Qed.

(** C9 (as amended).  From its upgrade on, and as long as no other
    connection with the same address is upgraded or leaves its read loop
    and its own read does not fail, a connection is in the registry under
    its address.  The registry holds at most one client per address at
    any instant, and a new connection from an address already present
    replaces the entry: the new client is the one found and the number of
    entries is unchanged. *)
Theorem registry_membership (conn : Conn) (evs : list Event) (s : Server) :
  (Forall (fun ev => disturbs conn ev = false) evs ->
   ConnectedClients (run (EvUpgrade conn :: evs) s) !! RemoteAddr conn
     = Some {| Connection := conn |}) /\
  NoDup (map_to_list (ConnectedClients (run evs s))).*1 /\
  ConnectedClients (step s (EvUpgrade conn)) !! RemoteAddr conn
    = Some {| Connection := conn |} /\
  (is_Some (ConnectedClients s !! RemoteAddr conn) ->
   size (ConnectedClients (step s (EvUpgrade conn))) = size (ConnectedClients s)).
Proof.
  split_and!.
  - intros Hevs. cbn [run foldl]. apply ServerFacts.run_keeps; [done|].
    rewrite ServerFacts.step_registry. apply lookup_insert_eq.
  - apply NoDup_fst_map_to_list.
  - rewrite ServerFacts.step_registry. apply lookup_insert_eq.
  - intros Hin. rewrite ServerFacts.step_registry.
    by apply map_size_insert_Some.
Qed.

Lemma registry_membership_witness :
  ConnectedClients
    (run [EvUpgrade conn_a;
          EvRead conn_a TextMessage (bytes_of "ping");
          EvUpgrade conn_c;
          EvBroadcast (bytes_of "{}");
          EvRun 0 (Err (ErrLibrary "broken pipe"));
          EvReadError conn_c (ErrLibrary "EOF")] Server_init)
    !! RemoteAddr conn_a = Some {| Connection := conn_a |} /\
  size (ConnectedClients (step two_clients (EvUpgrade conn_b)))
    = size (ConnectedClients two_clients).
Proof.
  split.
  - apply (proj1 (registry_membership conn_a
                    [EvRead conn_a TextMessage (bytes_of "ping");
                     EvUpgrade conn_c;
                     EvBroadcast (bytes_of "{}");
                     EvRun 0 (Err (ErrLibrary "broken pipe"));
                     EvReadError conn_c (ErrLibrary "EOF")] Server_init)).
    repeat constructor.
  - apply (proj2 (proj2 (proj2 (registry_membership conn_b [] two_clients)))).
    unfold two_clients. cbn [ConnectedClients].
    change (RemoteAddr conn_b) with (RemoteAddr conn_a).
    rewrite lookup_insert_eq. eauto.
Defined.

(** * Further properties of the code *)

(** ** The payload decoder, from the bytes to the record and back *)

Module DecoderFacts.
Import Borsh Layout.

Lemma code_range (b : byte) : (0 <= Z.of_N (Byte.to_N b) < 2 ^ 8)%Z.
Proof. pose proof (Byte.to_N_bounded b). change (2 ^ 8)%Z with 256%Z. lia. Qed.

Lemma byte_of_code (b : byte) (z : Z) :
  (z mod 2 ^ 8)%Z = Z.of_N (Byte.to_N b) -> byte_of_Z z = b.
Proof.
  intros E. unfold byte_of_Z. change 256%Z with (2 ^ 8)%Z. rewrite E.
  by rewrite N2Z.id, Byte.of_to_N.
Qed.

Lemma lor_shiftl_add (a b k : Z) :
  (0 <= k)%Z -> (0 <= a < 2 ^ k)%Z ->
  Z.lor a (Z.shiftl b k) = (a + b * 2 ^ k)%Z.
Proof.
  intros Hk Ha. rewrite <- (Z.shiftl_mul_pow2 b k) by lia.
  rewrite <- Z.add_lor_land.
  assert (Z.land a (Z.shiftl b k) = 0%Z) as ->; [|lia].
  apply Z.bits_inj'. intros i Hi. rewrite Z.land_spec, Z.bits_0.
  destruct (Z_lt_dec i k).
  - rewrite Z.shiftl_spec_low by lia. apply andb_false_r.
  - rewrite <- (Z.mod_small a (2 ^ k)) by lia.
    by rewrite Z.mod_pow2_bits_high by lia.
Qed.

(** A little-endian [uint32] as a sum. *)
Lemma Uint32_sum (b0 b1 b2 b3 : byte) :
  Uint32 b0 b1 b2 b3 =
    (Z.of_N (Byte.to_N b0) + Z.of_N (Byte.to_N b1) * 2 ^ 8
     + Z.of_N (Byte.to_N b2) * 2 ^ 16 + Z.of_N (Byte.to_N b3) * 2 ^ 24)%Z.
Proof.
  pose proof (code_range b0). pose proof (code_range b1).
  pose proof (code_range b2). pose proof (code_range b3).
  unfold Uint32.
  rewrite (lor_shiftl_add _ _ 8) by lia.
  rewrite (lor_shiftl_add _ _ 16) by lia.
  rewrite (lor_shiftl_add _ _ 24) by lia. done.
Qed.

Lemma Uint32_range (b0 b1 b2 b3 : byte) :
  (0 <= Uint32 b0 b1 b2 b3 < 2 ^ 32)%Z.
Proof.
  pose proof (code_range b0). pose proof (code_range b1).
  pose proof (code_range b2). pose proof (code_range b3).
  rewrite Uint32_sum. lia.
Qed.

Lemma PutUint32_Uint32 (b0 b1 b2 b3 : byte) :
  PutUint32 (Uint32 b0 b1 b2 b3) = [b0; b1; b2; b3].
Proof.
  pose proof (code_range b0). pose proof (code_range b1).
  pose proof (code_range b2). pose proof (code_range b3).
  unfold PutUint32. rewrite Uint32_sum, !Z.shiftr_div_pow2 by lia.
  change (2 ^ 8)%Z with 256%Z in *. change (2 ^ 16)%Z with 65536%Z.
  change (2 ^ 24)%Z with 16777216%Z.
  repeat f_equal; apply byte_of_code; change (2 ^ 8)%Z with 256%Z;
    Z.to_euclidean_division_equations; lia.
Qed.

(** What [ReadString] returns is the text of a Borsh string at the head of
    the input. *)
Lemma ReadString_inv (data s rest : list byte) :
  ReadString data = Return (s, rest) ->
  exists enc, encode_string s = Some enc /\ data = enc ++ rest.
Proof.
  unfold ReadString, ReadLength, dec_bind, ReadUint32.
  destruct data as [|b0 [|b1 [|b2 [|b3 data]]]]; try done.
  destruct (Z.ltb_spec max_length (Uint32 b0 b1 b2 b3)) as [|Hmax]; [done|].
  unfold ReadNBytes.
  pose proof (Uint32_range b0 b1 b2 b3) as Hr.
  destruct (Z.leb_spec (Uint32 b0 b1 b2 b3) (Z.of_nat (length data)));
    [|done].
  intros [= <- <-]. unfold encode_string.
  rewrite length_take, Nat.min_l by lia. rewrite Z2Nat.id by lia.
  destruct (Z.leb_spec (Uint32 b0 b1 b2 b3) max_length); [|lia].
  eexists. split; [done|].
  rewrite PutUint32_Uint32. cbn [app]. by rewrite take_drop.
Qed.

Lemma ReadArray_inv (n : nat) (data rest : list byte) (v : vec byte n) :
  ReadArray n data = Return (v, rest) -> data = vec_to_list v ++ rest.
Proof.
  revert data. induction v as [|b n v IH]; intros data.
  - by intros [= <-].
  - cbn [ReadArray]. destruct data as [|b' data]; [done|].
    unfold dec_bind.
    destruct (ReadArray n data) as [[v' rest']| |] eqn:E; [|done|done].
    unfold dec_ret. intros H.
    pose proof (f_equal (fun o => match o with
                                  | Return p => Some p
                                  | _ => None
                                  end) H) as Hp.
    cbn in Hp. apply (inj Some) in Hp.
    pose proof (f_equal fst Hp) as Hv. pose proof (f_equal snd Hp) as Hr.
    cbn in Hv, Hr. subst rest'. apply vcons_inj in Hv as [-> ->].
    cbn. f_equal. by apply IH.
Qed.

(** The struct decoder returns a record only on input that begins with the
    encoding of that record. *)
Lemma decode_inv (data rest : list byte) (ev : RawEvent) :
  borsh_decode (T := RawEvent) data = Return (ev, rest) ->
  exists body, encode_RawEvent ev = Some body /\ data = body ++ rest.
Proof.
  unfold borsh_decode, RawEvent_BorshDecode, dec_bind.
  destruct (ReadString data) as [[name r1]| |] eqn:E1; [|done|done].
  destruct (ReadString r1) as [[symbol r2]| |] eqn:E2; [|done|done].
  destruct (ReadString r2) as [[uri r3]| |] eqn:E3; [|done|done].
  unfold borsh_decode, PublicKey_BorshDecode.
  destruct (ReadArray 32 r3) as [[mint r4]| |] eqn:E4; [|done|done].
  unfold dec_ret. intros [= <- <-].
  apply ReadString_inv in E1 as (e1 & H1 & ->).
  apply ReadString_inv in E2 as (e2 & H2 & ->).
  apply ReadString_inv in E3 as (e3 & H3 & ->).
  apply ReadArray_inv in E4 as ->.
  unfold encode_RawEvent. cbn. rewrite H1, H2, H3. cbn.
  eexists. split; [done|]. by rewrite <- !app_assoc.
Qed.

Lemma ReadString_truncated (s enc : list byte) (m : nat) :
  encode_string s = Some enc -> m < length enc ->
  exists err, ReadString (take m enc) = Failure err.
Proof.
  unfold encode_string, max_length.
  destruct (Z.leb_spec (Z.of_nat (length s)) 0x7FFFFFFF); [|done].
  intros [= <-] Hm. unfold PutUint32 in *. cbn [app length] in Hm.
  unfold ReadString, ReadLength, dec_bind, max_length.
  destruct m as [|[|[|[|k]]]]; cbn [app take ReadUint32]; eauto.
  rewrite BorshFacts.Uint32_PutUint32 by lia.
  destruct (Z.ltb_spec 0x7FFFFFFF (Z.of_nat (length s))); [lia|].
  unfold ReadNBytes.
  rewrite length_take.
  destruct (Z.leb_spec (Z.of_nat (length s)) (Z.of_nat (k `min` length s)));
    [lia|eauto].
Qed.

Lemma ReadArray_truncated (n : nat) (v : vec byte n) (m : nat) :
  m < n -> exists err, ReadArray n (take m (vec_to_list v)) = Failure err.
Proof.
  revert m. induction v as [|b n v IH]; intros m Hm; [lia|].
  destruct m as [|m]; cbn [vec_to_list take ReadArray]; [eauto|].
  unfold dec_bind. destruct (IH m) as [err ->]; [lia|eauto].
Qed.

(** The input cut anywhere inside the encoding of a record: the struct
    decoder returns an error. *)
Lemma decode_truncated (ev : RawEvent) (body : list byte) (m : nat) :
  encode_RawEvent ev = Some body -> m < length body ->
  exists err, borsh_decode (T := RawEvent) (take m body) = Failure err.
Proof.
  unfold encode_RawEvent. destruct ev as [name symbol uri mint]. cbn.
  destruct (encode_string name) as [e1|] eqn:E1; [|done].
  destruct (encode_string symbol) as [e2|] eqn:E2; [|done].
  destruct (encode_string uri) as [e3|] eqn:E3; [|done].
  cbn. intros [= <-]. rewrite !length_app, length_vec_to_list. intros Hm.
  unfold borsh_decode, RawEvent_BorshDecode, dec_bind.
  rewrite take_app. destruct (decide (m < length e1)) as [H1|H1].
  { replace (m - length e1) with 0 by lia. rewrite take_0, app_nil_r.
    destruct (ReadString_truncated _ _ m E1 H1) as [err ->]. eauto. }
  rewrite (take_ge e1) by lia. rewrite (BorshFacts.ReadString_encode _ _ _ E1).
  rewrite take_app. destruct (decide (m - length e1 < length e2)) as [H2|H2].
  { replace (m - length e1 - length e2) with 0 by lia.
    rewrite take_0, app_nil_r.
    destruct (ReadString_truncated _ _ _ E2 H2) as [err ->]. eauto. }
  rewrite (take_ge e2) by lia. rewrite (BorshFacts.ReadString_encode _ _ _ E2).
  rewrite take_app.
  destruct (decide (m - length e1 - length e2 < length e3)) as [H3|H3].
  { replace (m - length e1 - length e2 - length e3) with 0 by lia.
    rewrite take_0, app_nil_r.
    destruct (ReadString_truncated _ _ _ E3 H3) as [err ->]. eauto. }
  rewrite (take_ge e3) by lia. rewrite (BorshFacts.ReadString_encode _ _ _ E3).
  unfold borsh_decode, PublicKey_BorshDecode.
  destruct (ReadArray_truncated 32 mint
              (m - length e1 - length e2 - length e3)) as [err ->]; [lia|eauto].
Qed.

End DecoderFacts.

(** X1.  Whatever [DecodeBase64] returns for the creation discriminator is
    the record whose encoding in the upstream's layout stands at the head
    of the input: decoding never invents a record, and the bytes it reads
    determine the record. *)
Theorem DecodeBase64_returns_encoded (data : list byte) (ev : RawEvent) :
  DecodeBase64 data creationDiscriminator = Return ev ->
  exists encoded rest,
    Layout.encode ev = Some encoded /\ data = encoded ++ rest.
Proof.
  rewrite DecodeBase64_eq.
  destruct (length data <? length creationDiscriminator); [done|].
  unfold Strings.Equal.
  destruct (bool_decide_reflect
              (take (length creationDiscriminator) data = creationDiscriminator))
    as [Hd|Hd]; [|done].
  cbn [negb]. unfold DecodeBorsh.
  destruct (borsh_decode (drop (length creationDiscriminator) data))
    as [[ev' rest]| |] eqn:E; [|done|done].
  intros [= ->]. apply DecoderFacts.decode_inv in E as (body & Hbody & Hdata).
  exists (creationDiscriminator ++ body), rest. split.
  - unfold Layout.encode. by rewrite Hbody.
  - rewrite <- app_assoc, <- Hdata. rewrite <- Hd at 1. by rewrite take_drop.
Qed.

Lemma DecodeBase64_returns_encoded_witness :
  exists encoded rest,
    Layout.encode example_event = Some encoded /\
    example_encoded ++ [x00; xff] = encoded ++ rest.
Proof.
  apply (DecodeBase64_returns_encoded (example_encoded ++ [x00; xff])
           example_event).
  reflexivity.
Defined.

(** X2.  For every target type and discriminator: [DecodeBase64] returns a
    value exactly when the data starts with the discriminator and the
    Borsh decoder returns that value on the bytes after it, and it returns
    the wrapped Borsh error exactly when the data starts with the
    discriminator and the Borsh decoder fails with that error. *)
Theorem DecodeBase64_return_iff {T} `{BorshDecode T}
    (data discriminator : list byte) (v : T) (err : error) :
  (DecodeBase64 data discriminator = Return v <->
   Strings.HasPrefix data discriminator = true /\
   DecodeBorsh (drop (length discriminator) data) = Return v) /\
  (DecodeBase64 data discriminator
     = Failure (ErrWrapped "failed to decode Borsh payload" err) <->
   Strings.HasPrefix data discriminator = true /\
   DecodeBorsh (drop (length discriminator) data) = Failure err).
Proof.
  rewrite DecodeBase64_eq. unfold Strings.HasPrefix.
  destruct (Nat.ltb_spec (length data) (length discriminator)) as [Hlt|Hge].
  - rewrite (proj2 (Nat.leb_gt _ _)) by lia. cbn [andb].
    split; (split; [done|by intros [? _]]).
  - rewrite (proj2 (Nat.leb_le _ _)) by lia. cbn [andb].
    destruct (Strings.Equal (take (length discriminator) data) discriminator);
      cbn [negb].
    + destruct (DecodeBorsh (drop (length discriminator) data)) as [v'|e|];
        split; split; try done; try (by intros [_ ?]);
        try (intros [= ->]; done); try (intros [_ [= ->]]; done).
    + split; (split; [done|by intros [? _]]).
Qed.

Lemma DecodeBase64_return_iff_witness :
  DecodeBase64 (T := RawEvent)
    (creationDiscriminator ++ [x05; x00; x00; x00; x61; x62])
    creationDiscriminator
  = Failure (ErrWrapped "failed to decode Borsh payload"
               (ErrLibrary "unexpected EOF")).
Proof.
  apply (proj2 (proj2 (DecodeBase64_return_iff (T := RawEvent)
           (creationDiscriminator ++ [x05; x00; x00; x00; x61; x62])
           creationDiscriminator example_event (ErrLibrary "unexpected EOF")))).
  split; reflexivity.
Defined.

(** X3.  A payload cut short never yields an event: on every proper prefix
    of the encoding of a record, [DecodeBase64] returns an error. *)
Theorem DecodeBase64_truncated (ev : RawEvent) (encoded : list byte) (n : nat) :
  Layout.encode ev = Some encoded ->
  n < length encoded ->
  exists err, DecodeBase64 (T := RawEvent) (take n encoded) creationDiscriminator
              = Failure err.
Proof.
  unfold Layout.encode.
  destruct (Layout.encode_RawEvent ev) as [body|] eqn:E; [|done].
  intros Henc. assert (encoded = creationDiscriminator ++ body) as ->
    by (by injection Henc).
  rewrite length_app. intros Hn. rewrite DecodeBase64_eq, length_take, length_app.
  destruct (Nat.ltb_spec (n `min` (length creationDiscriminator + length body))
              (length creationDiscriminator)) as [Hs|Hs]; [eauto|].
  assert (length creationDiscriminator <= n) as Hge by lia.
  rewrite take_app, (take_ge creationDiscriminator) by done.
  rewrite take_app_length, drop_app_length. unfold Strings.Equal.
  rewrite bool_decide_eq_true_2 by done. cbn [negb]. unfold DecodeBorsh.
  destruct (DecoderFacts.decode_truncated ev body
              (n - length creationDiscriminator) E) as [err ->]; [lia|eauto].
Qed.

Lemma DecodeBase64_truncated_witness :
  exists err,
    DecodeBase64 (T := RawEvent) (take 40 example_encoded) creationDiscriminator
    = Failure err.
Proof.
  apply (DecodeBase64_truncated example_event example_encoded 40).
  - reflexivity.
  - cbn. lia.
Defined.

(** ** The log filter, on what it returns *)

Module IndexFacts.
Import Strings.

(** At the index [Index] returns, the text reads [sep]. *)
Lemma Index_occurs (s sep : list byte) (k : nat) :
  Index s sep = Some k -> HasPrefix (drop k s) sep = true.
Proof.
  intros H. pose proof (StringsFacts.Index_length _ _ _ H) as Hlen.
  pose proof (StringsFacts.Index_Some _ _ _ H) as E.
  rewrite E, drop_app_length'; [apply StringsFacts.HasPrefix_app|].
  rewrite length_take. lia.
Qed.

(** An instance inside the first [j] bytes is an instance in the whole. *)
Lemma HasPrefix_take (s sep : list byte) (j k : nat) :
  k + length sep <= j ->
  HasPrefix (drop k (take j s)) sep = HasPrefix (drop k s) sep.
Proof.
  intros Hk. unfold HasPrefix. rewrite !length_drop, !length_take.
  rewrite !take_drop_commute, take_take, (Nat.min_l (k + length sep) j) by lia.
  destruct (Nat.leb_spec (length sep) (j `min` length s - k));
    destruct (Nat.leb_spec (length sep) (length s - k)); try done; lia.
Qed.

(** The text before the first instance of [sep] holds no instance. *)
Lemma Index_take (s sep : list byte) (j : nat) :
  sep <> [] -> Index s sep = Some j -> Index (take j s) sep = None.
Proof.
  intros Hsep Hj.
  destruct (Index (take j s) sep) as [k|] eqn:Ek; [|done].
  pose proof (StringsFacts.Index_length _ _ _ Ek) as Hlen.
  rewrite length_take in Hlen.
  assert (0 < length sep) by (destruct sep; [done|simpl; lia]).
  pose proof (Index_occurs _ _ _ Ek) as Ho.
  rewrite HasPrefix_take in Ho by lia.
  rewrite (StringsFacts.Index_first s sep j k Hj) in Ho by lia. done.
Qed.

End IndexFacts.

(** X4.  [extractProgramData] fails, with "log does not contain program
    data", exactly on the lines without the prefix text; the payload it
    returns otherwise is a segment of the line that never contains the
    prefix text itself. *)
Theorem extractProgramData_prefix_free (log : list byte) :
  (extractProgramData log = Failure ErrNoProgramData <->
   Strings.Contains log programDataPrefix = false) /\
  (forall err, extractProgramData log = Failure err -> err = ErrNoProgramData) /\
  (forall payload,
     extractProgramData log = Return payload ->
     Strings.Contains payload programDataPrefix = false /\
     exists before after,
       log = before ++ programDataPrefix ++ payload ++ after).
Proof.
  rewrite extractProgramData_eq, StringsFacts.Contains_false.
  destruct (Strings.Index log programDataPrefix) as [i|] eqn:Ei; cbv zeta.
  - pose proof (StringsFacts.Index_Some _ _ _ Ei) as Hlog.
    set (rest := drop (i + length programDataPrefix) log) in *.
    destruct (Strings.Index rest programDataPrefix) as [j|] eqn:Ej;
      (split_and!; [done|done|]); intros payload Hpay;
      assert (Hp := f_equal (fun o => match o with
                                      | Return p => p
                                      | _ => []
                                      end) Hpay); cbn beta iota in Hp;
      subst payload.
    + split.
      * apply StringsFacts.Contains_false, IndexFacts.Index_take;
          [apply programDataPrefix_nonempty|done].
      * exists (take i log), (drop j rest). by rewrite take_drop.
    + split; [by apply StringsFacts.Contains_false|].
      exists (take i log), []. by rewrite app_nil_r.
  - split_and!; [done|by intros err [= <-]|done].
Qed.

Lemma extractProgramData_prefix_free_witness :
  Strings.Contains (bytes_of "A") programDataPrefix = false /\
  exists before after,
    twice_prefixed_line = before ++ programDataPrefix ++ bytes_of "A" ++ after.
Proof.
  apply (proj2 (proj2 (extractProgramData_prefix_free twice_prefixed_line))).
  reflexivity.
Defined.

(** X5.  On a line in the format of the runtime, the prefix followed by a
    payload in which the prefix text does not occur (base64 text never
    holds it), the payload is returned whole. *)
Theorem extractProgramData_standard_line (payload : list byte) :
  Strings.Contains payload programDataPrefix = false ->
  extractProgramData (programDataPrefix ++ payload) = Return payload.
Proof.
  intros Hp. apply StringsFacts.Contains_false in Hp.
  rewrite extractProgramData_eq.
  assert (Strings.Index (programDataPrefix ++ payload) programDataPrefix = Some 0)
    as ->.
  { destruct payload; cbn [app Strings.Index];
      by rewrite ?app_nil_r, ?(StringsFacts.HasPrefix_app programDataPrefix). }
  cbv zeta. cbn [Nat.add]. rewrite drop_app_length. by rewrite Hp.
Qed.

Lemma extractProgramData_standard_line_witness :
  extractProgramData (programDataPrefix ++ example_payload)
    = Return example_payload.
Proof. apply (extractProgramData_standard_line example_payload). reflexivity. Defined.

(** ** The stream: what reaches the broadcaster *)

Module StreamFacts.

Lemma broadcasts_app (t1 t2 : list Effect) :
  broadcasts (t1 ++ t2) = broadcasts t1 ++ broadcasts t2.
Proof. apply omap_app. Qed.

Lemma line_errors_app (t1 t2 : list Effect) :
  line_errors (t1 ++ t2) = line_errors t1 ++ line_errors t2.
Proof. apply omap_app. Qed.

Lemma connection_errors_app (t1 t2 : list Effect) :
  connection_errors (t1 ++ t2) = connection_errors t1 ++ connection_errors t2.
Proof. apply omap_app. Qed.

Lemma closes_app (t1 t2 : list Effect) :
  closes (t1 ++ t2) = closes t1 + closes t2.
Proof. unfold closes. by rewrite List.filter_app, length_app. Qed.

Lemma receives_app (t1 t2 : list Effect) :
  receives (t1 ++ t2) = receives t1 + receives t2.
Proof. unfold receives. by rewrite List.filter_app, length_app. Qed.

(** The effects of [processLog] are prints of a new token and hand-overs
    to the broadcaster, nothing else. *)
Lemma processLog_effects `{L : Libraries} (log : list byte) :
  line_errors (processLog log).1 = [] /\
  connection_errors (processLog log).1 = [] /\
  closes (processLog log).1 = 0 /\
  receives (processLog log).1 = 0.
Proof.
  rewrite processLog_eq.
  destruct (negb (Strings.Contains log logIdentifier)); [done|].
  destruct (extractProgramData log) as [data| |]; [|done|done].
  destruct (base64_DecodeString data) as [decoded|]; [|done].
  destruct (negb (Strings.HasPrefix decoded creationDiscriminator)); [done|].
  destruct (DecodeBorsh (T := RawEvent) _) as [event| |]; [|done|done].
  by destruct (json_Marshal _).
Qed.

Lemma processLogs_measures `{L : Libraries} (logs : list (list byte)) :
  (processLogs logs).2 = Return tt /\
  broadcasts (processLogs logs).1 = mjoin (line_broadcasts <$> logs) /\
  line_errors (processLogs logs).1 = omap line_error logs /\
  connection_errors (processLogs logs).1 = [] /\
  closes (processLogs logs).1 = 0 /\
  receives (processLogs logs).1 = 0.
Proof.
  induction logs as [|log logs (IHr & IHb & IHe & IHc & IHk & IHv)]; [done|].
  cbn [processLogs fmap list_fmap mjoin list_join omap list_omap].
  unfold line_broadcasts at 1, line_error at 1.
  pose proof (processLog_no_panic log) as Hp.
  destruct (processLog_effects log) as (He & Hc & Hk & Hv).
  destruct (processLog log) as [tr [[]|err|]]; [| |done];
    destruct (processLogs logs) as [tr' r]; cbn [fst snd] in *;
    change (?t ++ ?e :: ?t') with (t ++ [e] ++ t');
    rewrite ?broadcasts_app, ?line_errors_app, ?connection_errors_app,
      ?closes_app, ?receives_app, IHb, IHe, IHc, IHk, IHv, He, Hc, Hk, Hv;
    done.
Qed.

Lemma listenForMessages_measures `{L : Libraries}
    (messages : list (list (list byte))) (err : error) :
  (listenForMessages messages err).2
    = Failure (ErrWrapped "error receiving message" err) /\
  broadcasts (listenForMessages messages err).1
    = mjoin (line_broadcasts <$> mjoin messages) /\
  line_errors (listenForMessages messages err).1 = omap line_error (mjoin messages) /\
  connection_errors (listenForMessages messages err).1 = [] /\
  closes (listenForMessages messages err).1 = 0 /\
  receives (listenForMessages messages err).1 = length messages + 1.
Proof.
  induction messages as [|logs messages (IHr & IHb & IHe & IHc & IHk & IHv)];
    [done|].
  cbn [listenForMessages mjoin list_join].
  destruct (processLogs_measures logs) as (Hr & Hb & He & Hc & Hk & Hv).
  destruct (processLogs logs) as [tr r]. cbn [fst snd] in *. subst r.
  destruct (listenForMessages messages err) as [tr' r']. cbn [fst snd] in *.
  change (sub_Recv :: tr ++ tr') with ([sub_Recv] ++ tr ++ tr').
  rewrite fmap_app, join_app, omap_app.
  rewrite !broadcasts_app, !line_errors_app, !connection_errors_app,
    !closes_app, !receives_app, IHb, IHe, IHc, IHk, IHv, Hb, He, Hc, Hk, Hv.
  by split_and!.
Qed.

Lemma connectAndListen_measures `{L : Libraries} (u : Upstream) :
  (connectAndListen u).2 = Failure (phase_error u) /\
  broadcasts (connectAndListen u).1 = mjoin (line_broadcasts <$> delivered u) /\
  line_errors (connectAndListen u).1 = omap line_error (delivered u) /\
  connection_errors (connectAndListen u).1 = [] /\
  closes (connectAndListen u).1 = (if established u then 1 else 0).
Proof.
  destruct u as [err|err|messages err]; cbn [connectAndListen]; [done|done|].
  destruct (listenForMessages_measures messages err)
    as (Hr & Hb & He & Hc & Hk & _).
  destruct (listenForMessages messages err) as [tr r]. cbn [fst snd] in *.
  rewrite !broadcasts_app, !line_errors_app, !connection_errors_app,
    !closes_app, Hb, He, Hc, Hk.
  split_and!; try done; cbn; by rewrite ?app_nil_r.
Qed.

Lemma loop_measures `{L : Libraries} (script : list Upstream) :
  broadcasts (listenToNewPairs_loop script)
    = mjoin ((fun u => mjoin (line_broadcasts <$> delivered u)) <$> script) /\
  line_errors (listenToNewPairs_loop script)
    = mjoin ((fun u => omap line_error (delivered u)) <$> script) /\
  connection_errors (listenToNewPairs_loop script) = phase_error <$> script /\
  closes (listenToNewPairs_loop script)
    = length (List.filter established script).
Proof.
  induction script as [|u script (IHb & IHe & IHc & IHk)]; [done|].
  cbn [listenToNewPairs_loop fmap list_fmap mjoin list_join List.filter].
  destruct (connectAndListen_measures u) as (Hr & Hb & He & Hc & Hk).
  destruct (connectAndListen u) as [tr r]. cbn [fst snd] in *. subst r.
  rewrite !broadcasts_app, !line_errors_app, !connection_errors_app,
    !closes_app, IHb, IHe, IHc, IHk, Hb, He, Hc, Hk.
  split_and!; try done. destruct (established u); cbn; lia.
Qed.

End StreamFacts.

(** X6.  One failing line does not stop the stream.  [listenForMessages]
    returns only when [sub.Recv] fails, with that error wrapped; until
    then every line of every message went through [processLog], in order:
    what reached the broadcaster is what the lines give one by one, the
    errors printed are those of the failing lines, and [Recv] was called
    once per message and once more. *)
Theorem listenForMessages_processes_every_line `{L : Libraries}
    (messages : list (list (list byte))) (err : error) :
  (listenForMessages messages err).2
    = Failure (ErrWrapped "error receiving message" err) /\
  broadcasts (listenForMessages messages err).1
    = mjoin (line_broadcasts <$> mjoin messages) /\
  line_errors (listenForMessages messages err).1
    = omap line_error (mjoin messages) /\
  receives (listenForMessages messages err).1 = length messages + 1.
Proof.
  destruct (StreamFacts.listenForMessages_measures messages err)
    as (Hr & Hb & He & _ & _ & Hv).
  done.
Qed.

(** X7.  [connectAndListen] never returns [nil]: it returns the error of
    the phase that failed under that phase's message.  It closes the
    socket exactly when the connection had been opened, once and as its
    last action, and it leaves no socket open when the connection
    failed. *)
Theorem connectAndListen_closes_socket `{L : Libraries} (u : Upstream) :
  (connectAndListen u).2 = Failure (phase_error u) /\
  head (connectAndListen u).1 = Some ws_Connect /\
  closes (connectAndListen u).1 = (if established u then 1 else 0) /\
  (established u = true -> last (connectAndListen u).1 = Some socket_Close) /\
  (established u = false -> (connectAndListen u).1 = [ws_Connect]).
Proof.
  destruct (StreamFacts.connectAndListen_measures u) as (Hr & _ & _ & _ & Hk).
  split_and!; try done.
  - by destruct (LoopFacts.connectAndListen_fails u) as (q & e & -> & _).
  - destruct u as [err|err|messages err]; [done|done|]. intros _.
    cbn [connectAndListen]. destruct (listenForMessages messages err) as [tr r].
    cbn [fst]. by rewrite !last_app.
  - by destruct u.
Qed.

Lemma connectAndListen_closes_socket_witness :
  last (connectAndListen (L := Reference.libraries)
          (RecvFails [[example_line]] (ErrLibrary "EOF"))).1
    = Some socket_Close /\
  (connectAndListen (L := Reference.libraries)
     (ConnectFails (ErrLibrary "dial tcp: timeout"))).1 = [ws_Connect].
Proof.
  split.
  - destruct (connectAndListen_closes_socket (L := Reference.libraries)
                (RecvFails [[example_line]] (ErrLibrary "EOF")))
      as (_ & _ & _ & Hlast & _).
    apply Hlast. reflexivity.
  - destruct (connectAndListen_closes_socket (L := Reference.libraries)
                (ConnectFails (ErrLibrary "dial tcp: timeout")))
      as (_ & _ & _ & _ & Honly).
    apply Honly. reflexivity.
Defined.

(** X8.  Across reconnects nothing is lost, repeated or left open: over
    any sequence of upstream failures the loop hands to the broadcaster
    what the delivered lines give, in the order they were delivered,
    prints one connection error per failure, the error of its phase, and
    closes as many sockets as connections were opened. *)
Theorem listenToNewPairs_relays_in_order `{L : Libraries}
    (script : list Upstream) :
  broadcasts (listenToNewPairs script)
    = mjoin ((fun u => mjoin (line_broadcasts <$> delivered u)) <$> script) /\
  line_errors (listenToNewPairs script)
    = mjoin ((fun u => omap line_error (delivered u)) <$> script) /\
  connection_errors (listenToNewPairs script) = phase_error <$> script /\
  closes (listenToNewPairs script) = length (List.filter established script).
Proof.
  unfold listenToNewPairs.
  destruct (StreamFacts.loop_measures script) as (Hb & He & Hc & Hk).
  split_and!; [exact Hb | exact He | exact Hc | exact Hk].
Qed.

(** ** The registry over whole runs of the server *)

Module RegistryFacts.

Lemma step_keyed (s : Server) (ev : Event) :
  registry_keyed s -> registry_keyed (step s ev).
Proof.
  intros Hs id c. rewrite ServerFacts.step_registry.
  destruct ev as [|conn|conn mt m|conn err| |i w]; try apply Hs.
  - intros [[<- <-]|[_ H]]%lookup_insert_Some; [done|by apply Hs].
  - intros [_ H]%lookup_delete_Some. by apply Hs.
Qed.

Lemma run_keyed (evs : list Event) (s : Server) :
  registry_keyed s -> registry_keyed (run evs s).
Proof.
  revert s. induction evs as [|ev evs IH]; intros s Hs; [done|].
  cbn [run foldl]. by apply IH, step_keyed.
Qed.

Lemma init_keyed : registry_keyed Server_init.
Proof. intros id c. cbn. by rewrite lookup_empty. Qed.

Lemma run_app (evs1 evs2 : list Event) (s : Server) :
  run (evs1 ++ evs2) s = run evs2 (run evs1 s).
Proof. apply foldl_app. Qed.

(** The clients of a snapshot, under the invariant. *)
Lemma allClients_keyed (s : Server) (c : Client) :
  registry_keyed s ->
  c ∈ allClients s <->
  ConnectedClients s !! RemoteAddr (Connection c) = Some c.
Proof.
  intros Hs. unfold allClients. rewrite list_elem_of_fmap. split.
  - intros ([id c'] & -> & Hin). apply elem_of_map_to_list in Hin.
    cbn. by rewrite (Hs _ _ Hin).
  - intros Hc. exists (RemoteAddr (Connection c), c). split; [done|].
    by apply elem_of_map_to_list.
Qed.

Lemma allClients_NoDup (s : Server) :
  registry_keyed s -> NoDup (allClients s).
Proof.
  intros Hs. unfold allClients.
  apply NoDup_fmap_2_strong; [|apply NoDup_map_to_list].
  intros [id1 c1] [id2 c2] H1 H2. cbn. intros <-.
  apply elem_of_map_to_list in H1, H2.
  by rewrite <- (Hs _ _ H1), <- (Hs _ _ H2).
Qed.

(** An address stays out of the registry as long as no connection with it
    is upgraded. *)
Lemma run_stays_absent (id : list byte) (evs : list Event) (s : Server) :
  Forall (fun ev => upgrades_address id ev = false) evs ->
  ConnectedClients s !! id = None ->
  ConnectedClients (run evs s) !! id = None.
Proof.
  intros Hevs. revert s. induction Hevs as [|ev evs Hev _ IH]; intros s Hs;
    [done|].
  cbn [run foldl]. apply IH. rewrite ServerFacts.step_registry.
  destruct ev as [|conn|conn mt m|conn err| |i w]; try done.
  - cbn in Hev. apply bool_decide_eq_false in Hev.
    by rewrite lookup_insert_ne.
  - apply lookup_delete_None. by right.
Qed.

Lemma lock_disciplined_app (held : list Client) (ops1 ops2 : list Op) :
  lock_disciplined held ops1 = true ->
  lock_disciplined held (ops1 ++ ops2) = lock_disciplined [] ops2.
Proof.
  revert held. induction ops1 as [|op ops1 IH]; intros held.
  - cbn. by intros ->%bool_decide_eq_true.
  - destruct op; cbn [app lock_disciplined]; rewrite ?andb_true_iff;
      try (intros [[-> ->] H] || intros [-> H] || intros H);
      cbn [andb]; by apply IH.
Qed.

Lemma run_goroutine_disciplined (g : Goroutine) (w : result unit) :
  lock_disciplined [] (run_goroutine g w) = true.
Proof.
  assert (Hin : forall c : Client, c ∈ [c]) by (intros; apply list_elem_of_here).
  assert (Hout : forall c : Client, c ∉ []) by (intros; apply not_elem_of_nil).
  assert (Hrel : forall c : Client, filter (fun c' => c' <> c) [c] = []).
  { intros c. rewrite filter_cons, decide_False by (by intros ?). done. }
  destruct g as [[conn] message|[conn] address], w as [[]|err];
    cbn [run_goroutine app lock_disciplined Connection];
    rewrite !bool_decide_eq_true_2, ?Hrel by done; done.
Qed.

Lemma step_disciplined (s : Server) (ev : Event) :
  lock_disciplined [] (performed s) = true ->
  lock_disciplined [] (performed (step s ev)) = true.
Proof.
  intros Hs.
  destruct ev as [e|conn|conn mt m|conn err|m|i w]; cbn;
    rewrite ?(lock_disciplined_app _ _ _ Hs); try done.
  - unfold handleConnection_frame.
    by destruct (Strings.Contains m pingMessage).
  - rewrite <- app_assoc. by rewrite (lock_disciplined_app _ _ _ Hs).
  - destruct (spawned s !! i) as [g|]; [|done]. cbn.
    rewrite (lock_disciplined_app _ _ _ Hs).
    apply run_goroutine_disciplined.
Qed.

(** The handler run alone is the run of its events. *)
Lemma HandleWebSocket_session (conn : Conn) (frames : list (Z * list byte))
    (err : error) (s : Server) :
  HandleWebSocket (Ok conn) frames err s = run (session conn frames err) s.
Proof.
  unfold HandleWebSocket, session, handleConnection.
  cbn [run foldl step]. rewrite foldl_app. cbn [foldl step].
  f_equal; f_equal; try f_equal;
    (generalize (handleConnection_register conn s); clear s;
     induction frames as [|[mt m] frames IH]; intros s; [done|];
     cbn [foldl fmap list_fmap]; apply IH).
Qed.

End RegistryFacts.

(** X9.  In every state the server reaches, each entry of the registry is
    filed under the remote address of its own connection, so a snapshot
    holds every client once: a broadcast starts no two deliveries to the
    same client. *)
Theorem registry_keyed_by_address (evs : list Event) (message : list byte) :
  (forall id c,
     ConnectedClients (run evs Server_init) !! id = Some c ->
     RemoteAddr (Connection c) = id) /\
  NoDup (allClients (run evs Server_init)) /\
  NoDup ((fun c => Deliver c message) <$> allClients (run evs Server_init)).
Proof.
  pose proof (RegistryFacts.run_keyed evs _ RegistryFacts.init_keyed) as Hk.
  split_and!.
  - exact Hk.
  - by apply RegistryFacts.allClients_NoDup.
  - apply NoDup_fmap_2_strong; [|by apply RegistryFacts.allClients_NoDup].
    by intros c1 c2 _ _ [= ->].
Qed.

Lemma registry_keyed_by_address_witness :
  RemoteAddr (Connection {| Connection := conn_c |}) = RemoteAddr conn_c.
Proof.
  apply (proj1 (registry_keyed_by_address
           [EvUpgrade conn_a; EvUpgrade conn_c;
            EvReadError conn_a (ErrLibrary "EOF")] (bytes_of "{}"))
           (RemoteAddr conn_c)).
  cbn. rewrite lookup_delete_ne by discriminate. apply lookup_insert_eq.
Defined.

(** X10.  After the read loop of a connection has ended, and until a
    connection with that address is upgraded again, a broadcast attempts
    no delivery to that address: the snapshot holds no client with it and
    no goroutine is started for the connection. *)
Theorem no_delivery_after_exit (evs later : list Event) (conn : Conn)
    (err : error) (message : list byte) :
  Forall (fun ev => upgrades_address (RemoteAddr conn) ev = false) later ->
  ConnectedClients (run (evs ++ EvReadError conn err :: later) Server_init)
    !! RemoteAddr conn = None /\
  (forall c,
     c ∈ allClients (run (evs ++ EvReadError conn err :: later) Server_init) ->
     RemoteAddr (Connection c) <> RemoteAddr conn) /\
  Deliver {| Connection := conn |} message
    ∉ (fun c => Deliver c message)
        <$> allClients (run (evs ++ EvReadError conn err :: later) Server_init).
Proof.
  intros Hlater.
  pose proof (RegistryFacts.run_keyed (evs ++ EvReadError conn err :: later)
                _ RegistryFacts.init_keyed) as Hk.
  assert (Habs : ConnectedClients
                   (run (evs ++ EvReadError conn err :: later) Server_init)
                   !! RemoteAddr conn = None).
  { rewrite RegistryFacts.run_app. cbn [run foldl].
    apply RegistryFacts.run_stays_absent; [done|].
    rewrite ServerFacts.step_registry. apply lookup_delete_eq. }
  assert (Hnone : forall c,
    c ∈ allClients (run (evs ++ EvReadError conn err :: later) Server_init) ->
    RemoteAddr (Connection c) <> RemoteAddr conn).
  { intros c Hc Haddr. apply RegistryFacts.allClients_keyed in Hc; [|done].
    rewrite Haddr in Hc. congruence. }
  split_and!; [done|done|].
  intros ([conn'] & [= <-] & Hin)%list_elem_of_fmap.
  by apply (Hnone _ Hin).
Qed.

Lemma no_delivery_after_exit_witness :
  ConnectedClients
    (run ([EvUpgrade conn_a; EvUpgrade conn_c]
          ++ EvReadError conn_a (ErrLibrary "EOF")
             :: [EvRead conn_c TextMessage (bytes_of "ping")]) Server_init)
    !! RemoteAddr conn_a = None.
Proof.
  apply (no_delivery_after_exit [EvUpgrade conn_a; EvUpgrade conn_c]
           [EvRead conn_c TextMessage (bytes_of "ping")] conn_a
           (ErrLibrary "EOF") (bytes_of "{}")).
  repeat constructor.
Defined.

(** X11.  [HandleWebSocket] from start to end.  A failed upgrade registers
    nothing and starts nothing.  After a successful one the call is the
    run of its steps; when it returns, the address of the connection is
    out of the registry and every other entry is as before, so a call on
    an address that was not registered leaves the registry as it found
    it; the connection is closed last, after the entry is gone. *)
Theorem HandleWebSocket_cleans_up (upgrade_err : error) (conn : Conn)
    (frames : list (Z * list byte)) (err : error) (s : Server) :
  ConnectedClients (HandleWebSocket (Err upgrade_err) frames err s)
    = ConnectedClients s /\
  spawned (HandleWebSocket (Err upgrade_err) frames err s) = spawned s /\
  HandleWebSocket (Ok conn) frames err s = run (session conn frames err) s /\
  ConnectedClients (HandleWebSocket (Ok conn) frames err s)
    = delete (RemoteAddr conn) (ConnectedClients s) /\
  (ConnectedClients s !! RemoteAddr conn = None ->
   ConnectedClients (HandleWebSocket (Ok conn) frames err s)
     = ConnectedClients s) /\
  performed (HandleWebSocket (Ok conn) frames err s) =
    performed s
    ++ [log_Printf (LNewConnection (RemoteAddr conn));
        log_Printf (LClientAdded (RemoteAddr conn));
        log_Printf (LReadError (RemoteAddr conn) err);
        log_Printf (LDisconnected (RemoteAddr conn));
        conn_Close conn].
Proof.
  assert (Hreg : ConnectedClients (HandleWebSocket (Ok conn) frames err s)
                 = delete (RemoteAddr conn) (ConnectedClients s)).
  { cbn. destruct (ServerFacts.frames_spawned conn frames
                     (handleConnection_register conn s)) as (-> & _ & _).
    cbn. apply delete_insert_eq. }
  split_and!; try done.
  - apply RegistryFacts.HandleWebSocket_session.
  - intros Habs. rewrite Hreg. by apply delete_id.
  - cbn. destruct (ServerFacts.frames_spawned conn frames
                     (handleConnection_register conn s)) as (_ & -> & _).
    cbn. by rewrite <- !app_assoc.
Qed.

Lemma HandleWebSocket_cleans_up_witness :
  ConnectedClients
    (HandleWebSocket (Ok conn_c) [(TextMessage, bytes_of "ping")]
       (ErrLibrary "EOF") Server_init)
  = ConnectedClients Server_init.
Proof.
  destruct (HandleWebSocket_cleans_up (ErrLibrary "bad handshake") conn_c
              [(TextMessage, bytes_of "ping")] (ErrLibrary "EOF") Server_init)
    as (_ & _ & _ & _ & Hback & _).
  apply Hback. reflexivity.
Defined.

(** X12.  Every write to a connection, by a delivery or by a pong, is a
    text message sent while the mutex of that connection's client is held,
    and the mutex is released after it whether or not the write failed:
    over any run of the server the operations performed keep the lock
    discipline. *)
Theorem writes_hold_the_lock (evs : list Event) (g : Goroutine)
    (w : result unit) :
  lock_disciplined [] (performed (run evs Server_init)) = true /\
  lock_disciplined [] (run_goroutine g w) = true.
Proof.
  split; [|apply RegistryFacts.run_goroutine_disciplined].
  assert (H : forall s, lock_disciplined [] (performed s) = true ->
                        lock_disciplined [] (performed (run evs s)) = true).
  { induction evs as [|ev evs IH]; intros s Hs; [done|].
    cbn [run foldl]. by apply IH, RegistryFacts.step_disciplined. }
  by apply H.
Qed.

(** X13.  A connection that was upgraded and has not been disturbed since
    (no read error of its own, no other connection on its address
    upgraded or leaving) is in the snapshot of a broadcast: the broadcast
    starts a delivery of the message to it. *)
Theorem broadcast_reaches_connected (conn : Conn) (evs : list Event)
    (s : Server) (message : list byte) :
  Forall (fun ev => disturbs conn ev = false) evs ->
  Deliver {| Connection := conn |} message
    ∈ spawned (step (run (EvUpgrade conn :: evs) s) (EvBroadcast message)).
Proof.
  intros Hevs. cbn [step sendMessageToAllClients spawned].
  apply elem_of_app. right. apply list_elem_of_fmap.
  exists {| Connection := conn |}. split; [done|].
  unfold allClients. apply list_elem_of_fmap.
  exists (RemoteAddr conn, {| Connection := conn |}). split; [done|].
  apply elem_of_map_to_list. cbn [run foldl].
  apply ServerFacts.run_keeps; [done|].
  rewrite ServerFacts.step_registry. apply lookup_insert_eq.
Qed.

Lemma broadcast_reaches_connected_witness :
  Deliver {| Connection := conn_a |} (bytes_of "{}")
    ∈ spawned (step (run (EvUpgrade conn_a
                            :: [EvUpgrade conn_c;
                                EvReadError conn_c (ErrLibrary "EOF")])
                         Server_init)
                    (EvBroadcast (bytes_of "{}"))).
Proof.
  apply (broadcast_reaches_connected conn_a
           [EvUpgrade conn_c; EvReadError conn_c (ErrLibrary "EOF")]
           Server_init (bytes_of "{}")).
  repeat constructor.
Defined.

(** X14.  The exit deletes by address, not by client.  When a connection
    is upgraded on the address of one that is still reading and the older
    one then gets its read error, the exit of the older handler removes
    the entry of the newer connection: the newer one is inside its read
    loop, the registry has nothing under its address, and a broadcast
    starts no delivery to it. *)
Theorem exit_removes_newer_client (evs : list Event) (older newer : Conn)
    (err : error) (message : list byte) :
  RemoteAddr older = RemoteAddr newer ->
  older <> newer ->
  in_read_loop newer
    (evs ++ [EvUpgrade older; EvUpgrade newer; EvReadError older err]) = true /\
  ConnectedClients
    (run (evs ++ [EvUpgrade older; EvUpgrade newer; EvReadError older err])
         Server_init) !! RemoteAddr newer = None /\
  Deliver {| Connection := newer |} message
    ∉ (fun c => Deliver c message)
        <$> allClients
              (run (evs ++ [EvUpgrade older; EvUpgrade newer;
                            EvReadError older err]) Server_init).
Proof.
  intros Haddr Hne.
  pose proof (RegistryFacts.run_keyed
                (evs ++ [EvUpgrade older; EvUpgrade newer; EvReadError older err])
                _ RegistryFacts.init_keyed) as Hk.
  assert (Habs : ConnectedClients
            (run (evs ++ [EvUpgrade older; EvUpgrade newer; EvReadError older err])
                 Server_init) !! RemoteAddr newer = None).
  { rewrite RegistryFacts.run_app. cbn [run foldl].
    rewrite ServerFacts.step_registry, Haddr. apply lookup_delete_eq. }
  split_and!; [|done|].
  - unfold in_read_loop. rewrite foldl_app. cbn [foldl].
    rewrite (decide_False (P := older = newer)) by done.
    by rewrite (decide_True (P := newer = newer)) by done.
  - intros ([conn'] & [= <-] & Hin)%list_elem_of_fmap.
    apply RegistryFacts.allClients_keyed in Hin; [|done]. cbn in Hin.
    congruence.
Qed.

Lemma exit_removes_newer_client_witness :
  in_read_loop conn_b
    ([] ++ [EvUpgrade conn_a; EvUpgrade conn_b;
            EvReadError conn_a (ErrLibrary "EOF")]) = true /\
  ConnectedClients
    (run ([] ++ [EvUpgrade conn_a; EvUpgrade conn_b;
                 EvReadError conn_a (ErrLibrary "EOF")])
         Server_init) !! RemoteAddr conn_b = None /\
  Deliver {| Connection := conn_b |} (bytes_of "{}")
    ∉ (fun c => Deliver c (bytes_of "{}"))
        <$> allClients
              (run ([] ++ [EvUpgrade conn_a; EvUpgrade conn_b;
                           EvReadError conn_a (ErrLibrary "EOF")]) Server_init).
Proof.
  apply (exit_removes_newer_client [] conn_a conn_b (ErrLibrary "EOF")
           (bytes_of "{}")).
  - reflexivity.
  - discriminate.
Defined.

(** ** The feed page *)

Module CosmoFacts.
Section Feed.
Context {Data TokenInfo : Type} (JSON_parse : Data -> option TokenInfo).

Lemma take_cons_take (n : nat) (x : TokenInfo) (l : list TokenInfo) :
  take (S n) (x :: take (S n) l) = take (S n) (x :: l).
Proof. cbn [take]. f_equal. rewrite take_take. f_equal. lia. Qed.

Lemma tokens_snoc (events : list Data) (event_data : Data) :
  Cosmo.tokens JSON_parse (events ++ [event_data])
    = Cosmo.onmessage JSON_parse (Cosmo.tokens JSON_parse events) event_data.
Proof. unfold Cosmo.tokens. by rewrite foldl_app. Qed.

Lemma tokens_latest (events : list Data) :
  Cosmo.tokens JSON_parse events = take 50 (reverse (omap JSON_parse events)).
Proof.
  induction events as [|event_data events IH] using rev_ind; [done|].
  rewrite tokens_snoc, IH, omap_app. unfold Cosmo.onmessage. cbn [omap list_omap].
  destruct (JSON_parse event_data) as [data|].
  - rewrite reverse_snoc. apply take_cons_take.
  - by rewrite app_nil_r.
Qed.

End Feed.
End CosmoFacts.

(** X15.  The feed page keeps the latest 50: after any sequence of
    messages the list is the values parsed from them, newest first, cut
    to the 50 most recent; it never holds more than 50, and a message that
    is not JSON leaves it as it was. *)
Theorem Cosmo_tokens_latest_50 {Data TokenInfo : Type}
    (JSON_parse : Data -> option TokenInfo) (events : list Data)
    (event_data : Data) :
  Cosmo.tokens JSON_parse events = take 50 (reverse (omap JSON_parse events)) /\
  length (Cosmo.tokens JSON_parse events) <= 50 /\
  (JSON_parse event_data = None ->
   Cosmo.tokens JSON_parse (events ++ [event_data])
     = Cosmo.tokens JSON_parse events) /\
  (forall data,
     JSON_parse event_data = Some data ->
     head (Cosmo.tokens JSON_parse (events ++ [event_data])) = Some data).
Proof.
  split_and!.
  - apply CosmoFacts.tokens_latest.
  - rewrite CosmoFacts.tokens_latest, length_take. lia.
  - intros Hp. rewrite CosmoFacts.tokens_snoc. unfold Cosmo.onmessage.
    by rewrite Hp.
  - intros data Hp. rewrite CosmoFacts.tokens_snoc. unfold Cosmo.onmessage.
    by rewrite Hp.
Qed.

Lemma Cosmo_tokens_latest_50_witness :
  Cosmo.tokens (fun n : nat => if n =? 0 then None else Some n)
    ([1; 2; 3] ++ [0])
  = Cosmo.tokens (fun n : nat => if n =? 0 then None else Some n) [1; 2; 3].
Proof.
  destruct (Cosmo_tokens_latest_50
              (fun n : nat => if n =? 0 then None else Some n) [1; 2; 3] 0)
    as (_ & _ & Hsame & _).
  apply Hsame. reflexivity.
Defined.

(** ** Every broadcast comes from an encoded record *)

Lemma HasPrefix_split (data prefix : list byte) :
  Strings.HasPrefix data prefix = true ->
  data = prefix ++ drop (length prefix) data.
Proof.
  intros H. apply StringsFacts.HasPrefix_true in H.
  transitivity (take (length prefix) data ++ drop (length prefix) data);
    [by rewrite take_drop | by rewrite H].
Qed.

(** X16.  [processLog] hands at most one message to the broadcaster, and
    only for a creation event: if it hands over [m], the line has the
    marker, its extracted payload base64-decodes to bytes that begin with
    the encoding (discriminator, then record) of some record, [m] is the
    JSON of the [CreateEvent] made from that record, [m] is also what is
    printed, and the call returns [nil]. *)
Theorem processLog_broadcast_sound `{L : Libraries} (log m : list byte) :
  m ∈ line_broadcasts log ->
  processLog log =
    ([Stdout (PNewToken m); go_sendMessageToAllClients m], Return tt) /\
  Strings.Contains log logIdentifier = true /\
  exists data ev encoded rest,
    extractProgramData log = Return data /\
    base64_DecodeString data = Ok (encoded ++ rest) /\
    Layout.encode ev = Some encoded /\
    json_Marshal {| CreateEvent.Name := Name ev;
                    CreateEvent.Symbol := Symbol ev;
                    CreateEvent.Uri := Uri ev;
                    CreateEvent.Mint := base58_Encode (vec_to_list (Mint ev)) |}
      = Ok m.
Proof.
  unfold line_broadcasts. rewrite processLog_eq.
  destruct (Strings.Contains log logIdentifier); cbn [negb];
    [|by intros ?%elem_of_nil].
  destruct (extractProgramData log) as [data| |];
    [|by intros ?%elem_of_nil|by intros ?%elem_of_nil].
  destruct (base64_DecodeString data) as [decoded|] eqn:Hb;
    [|by intros ?%elem_of_nil].
  destruct (Strings.HasPrefix decoded creationDiscriminator) eqn:Hp;
    cbn [negb]; [|by intros ?%elem_of_nil].
  unfold DecodeBorsh.
  destruct (borsh_decode (drop (length creationDiscriminator) decoded))
    as [[ev rest]| |] eqn:Hd;
    [|by intros ?%elem_of_nil|by intros ?%elem_of_nil].
  destruct (json_Marshal _) as [m'|] eqn:Hj; [|by intros ?%elem_of_nil].
  cbn. intros ->%list_elem_of_singleton.
  split_and!; [done|done|].
  apply DecoderFacts.decode_inv in Hd as (body & Hbody & Hrest).
  exists data, ev, (creationDiscriminator ++ body), rest.
  split_and!; [done| |by unfold Layout.encode; rewrite Hbody|done].
  rewrite Hb. f_equal. rewrite <- app_assoc, <- Hrest.
  by apply HasPrefix_split.
Qed.

Lemma processLog_broadcast_sound_witness :
  processLog (L := Reference.libraries) example_line =
    ([Stdout (PNewToken example_marshalled);
      go_sendMessageToAllClients example_marshalled], Return tt).
Proof.
  apply (processLog_broadcast_sound (L := Reference.libraries)
           example_line example_marshalled).
  vm_compute. apply list_elem_of_here.
Defined.
